(** * Gameflappy: the simulation engine of src/App.js

    A shallow embedding of the game component: the constants, the three
    mutable reference cells that hold the simulation (player, obstacles,
    clocks), the React state cells (running, score, best, gameOver) and the
    functions that drive them (resetGame, startGame, stopGame, loop,
    spawnObstacle, updatePlayer, updateObstacles, detectCollisions,
    rectIntersect and the keyboard handlers).

    Numbers.  JavaScript numbers are modelled as exact rationals [Q]:
    rounding of binary floating point is not part of the model.  Equality
    of numbers is [Qeq] ([==]).  Scores are integers [Z].

    State cells.  A function declared inside [App] reads [running],
    [score], [best] and [gameOver] as constants of the render that created
    it, and writes them through the setters for the next render.  The reads
    are therefore an explicit argument, a [View]; the writes go to the cells
    of the [Game] state.  Reference cells ([useRef]) are plain mutable
    fields, read and written in place. *)

From Stdlib Require Import QArith Qminmax Qround ZArith List String Bool Lia Lqa.
Import ListNotations.
Local Open Scope Q_scope.

(** ** Constants (App.js 13-23) *)

Definition GAME_WIDTH : Q := 700.
Definition GAME_HEIGHT : Q := 500.
Definition PLAYER_SIZE : Q := 34.
Definition GRAVITY : Q := 0.9.
Definition JUMP_VELOCITY : Q := -14.
Definition HORIZ_SPEED : Q := 6.
Definition OBSTACLE_WIDTH : Q := 70.
Definition GAP_MIN : Q := 120.
Definition GAP_MAX : Q := 180.
Definition OBSTACLE_INTERVAL : Q := 1600.
Definition OBSTACLE_SPEED : Q := 3.2.

(** The literal 16.6667 of lines 176, 177 and 197: milliseconds per frame. *)
Definition FRAME_MS : Q := 16.6667.

(** ** Comparisons of numbers, as booleans *)

(** [a < b] *)
Definition Qltb (a b : Q) : bool :=
  match a ?= b with Lt => true | _ => false end.

(** [a > b] *)
Definition Qgtb (a b : Q) : bool := Qltb b a.

(** ** Data *)

(** The object held by [playerRef] (App.js 37-43). *)
Record Player := mkPlayer {
  p_x : Q;
  p_y : Q;
  p_vy : Q;
  p_width : Q;
  p_height : Q
}.

(** An element of [obstaclesRef.current] (App.js 147-155). *)
Record Obstacle := mkObstacle {
  ob_x : Q;
  ob_gapTop : Q;
  ob_gapHeight : Q;
  ob_width : Q;
  ob_speed : Q;
  ob_passed : bool;
  ob_id : Q
}.

(** The rectangles built by [detectCollisions] (App.js 213-225). *)
Record Rect := mkRect {
  r_x : Q;
  r_y : Q;
  r_w : Q;
  r_h : Q
}.

(** [keysRef.current]: an object indexed by key code; an absent key reads
    [undefined], which is falsy. *)
Definition Keys := string -> bool.

Definition noKeys : Keys := fun _ => false.

Definition setKey (code : string) (b : bool) (k : Keys) : Keys :=
  fun c => if String.eqb c code then b else k c.

(** The values of the state cells as one render sees them. *)
Record View := mkView {
  v_running : bool;
  v_score : Z;
  v_best : Z;
  v_gameOver : bool
}.

(** The whole component: state cells, reference cells, and the browser's
    table of requested animation frames.  [requestAnimationFrame] hands out
    non-zero handles, hence [positive]. *)
Record Game := mkGame {
  running : bool;
  score : Z;
  best : Z;
  gameOver : bool;
  playerRef : Player;
  obstaclesRef : list Obstacle;
  keysRef : Keys;
  lastSpawnRef : Q;
  animationRef : option positive;
  lastTimeRef : option Q;
  frames : list positive;
  nextHandle : positive
}.

Definition view_of (st : Game) : View :=
  mkView (running st) (score st) (best st) (gameOver st).

(** *** Field updates *)

Definition set_x (v : Q) (p : Player) : Player :=
  mkPlayer v (p_y p) (p_vy p) (p_width p) (p_height p).
Definition set_y (v : Q) (p : Player) : Player :=
  mkPlayer (p_x p) v (p_vy p) (p_width p) (p_height p).
Definition set_vy (v : Q) (p : Player) : Player :=
  mkPlayer (p_x p) (p_y p) v (p_width p) (p_height p).

Definition set_ob_x (v : Q) (o : Obstacle) : Obstacle :=
  mkObstacle v (ob_gapTop o) (ob_gapHeight o) (ob_width o) (ob_speed o)
             (ob_passed o) (ob_id o).
Definition set_ob_passed (v : bool) (o : Obstacle) : Obstacle :=
  mkObstacle (ob_x o) (ob_gapTop o) (ob_gapHeight o) (ob_width o) (ob_speed o)
             v (ob_id o).

Definition setRunning (v : bool) (st : Game) : Game :=
  mkGame v (score st) (best st) (gameOver st) (playerRef st) (obstaclesRef st)
         (keysRef st) (lastSpawnRef st) (animationRef st) (lastTimeRef st)
         (frames st) (nextHandle st).
Definition setScore (f : Z -> Z) (st : Game) : Game :=
  mkGame (running st) (f (score st)) (best st) (gameOver st) (playerRef st)
         (obstaclesRef st) (keysRef st) (lastSpawnRef st) (animationRef st)
         (lastTimeRef st) (frames st) (nextHandle st).
Definition setBest (v : Z) (st : Game) : Game :=
  mkGame (running st) (score st) v (gameOver st) (playerRef st) (obstaclesRef st)
         (keysRef st) (lastSpawnRef st) (animationRef st) (lastTimeRef st)
         (frames st) (nextHandle st).
Definition setGameOver (v : bool) (st : Game) : Game :=
  mkGame (running st) (score st) (best st) v (playerRef st) (obstaclesRef st)
         (keysRef st) (lastSpawnRef st) (animationRef st) (lastTimeRef st)
         (frames st) (nextHandle st).
Definition set_playerRef (v : Player) (st : Game) : Game :=
  mkGame (running st) (score st) (best st) (gameOver st) v (obstaclesRef st)
         (keysRef st) (lastSpawnRef st) (animationRef st) (lastTimeRef st)
         (frames st) (nextHandle st).
Definition set_obstaclesRef (v : list Obstacle) (st : Game) : Game :=
  mkGame (running st) (score st) (best st) (gameOver st) (playerRef st) v
         (keysRef st) (lastSpawnRef st) (animationRef st) (lastTimeRef st)
         (frames st) (nextHandle st).
Definition set_keysRef (v : Keys) (st : Game) : Game :=
  mkGame (running st) (score st) (best st) (gameOver st) (playerRef st)
         (obstaclesRef st) v (lastSpawnRef st) (animationRef st)
         (lastTimeRef st) (frames st) (nextHandle st).
Definition set_lastSpawnRef (v : Q) (st : Game) : Game :=
  mkGame (running st) (score st) (best st) (gameOver st) (playerRef st)
         (obstaclesRef st) (keysRef st) v (animationRef st) (lastTimeRef st)
         (frames st) (nextHandle st).
Definition set_animationRef (v : option positive) (st : Game) : Game :=
  mkGame (running st) (score st) (best st) (gameOver st) (playerRef st)
         (obstaclesRef st) (keysRef st) (lastSpawnRef st) v (lastTimeRef st)
         (frames st) (nextHandle st).
Definition set_lastTimeRef (v : option Q) (st : Game) : Game :=
  mkGame (running st) (score st) (best st) (gameOver st) (playerRef st)
         (obstaclesRef st) (keysRef st) (lastSpawnRef st) (animationRef st) v
         (frames st) (nextHandle st).
Definition set_frames (v : list positive) (st : Game) : Game :=
  mkGame (running st) (score st) (best st) (gameOver st) (playerRef st)
         (obstaclesRef st) (keysRef st) (lastSpawnRef st) (animationRef st)
         (lastTimeRef st) v (nextHandle st).
Definition set_nextHandle (v : positive) (st : Game) : Game :=
  mkGame (running st) (score st) (best st) (gameOver st) (playerRef st)
         (obstaclesRef st) (keysRef st) (lastSpawnRef st) (animationRef st)
         (lastTimeRef st) (frames st) v.

(** ** The browser's animation frames *)

(** [requestAnimationFrame(cb)]: a fresh handle is recorded as pending. *)
Definition requestAnimationFrame (st : Game) : positive * Game :=
  let h := nextHandle st in
  (h, set_nextHandle (Pos.succ h) (set_frames (frames st ++ [h]) st)).

(** [cancelAnimationFrame(h)]: the handle is no longer pending. *)
Definition cancelAnimationFrame (h : positive) (st : Game) : Game :=
  set_frames (filter (fun k => negb (Pos.eqb k h)) (frames st)) st.

(** ** Randomness and the wall clock *)

(** The values drawn during one call of [spawnObstacle], in call order: four
    [Math.random()] results, each in [0,1), and one [Date.now()]. *)
Record Draws := mkDraws {
  d_gapH : Q;
  d_gapTop : Q;
  d_speed : Q;
  d_id : Q;
  d_now : Q
}.

Definition unit_draw (r : Q) : Prop := 0 <= r /\ r < 1.

Definition draws_ok (d : Draws) : Prop :=
  unit_draw (d_gapH d) /\ unit_draw (d_gapTop d) /\
  unit_draw (d_speed d) /\ unit_draw (d_id d).

(** App.js 25-27; [r] is the result of [Math.random()]. *)
Definition randomBetween (r : Q) (a b : Q) : Q :=
  inject_Z (Qfloor (r * (b - a + 1))) + a.

(** ** Session control (App.js 37-85) *)

Definition initialPlayer : Player :=
  mkPlayer (GAME_WIDTH / 4) (GAME_HEIGHT / 2) 0 PLAYER_SIZE PLAYER_SIZE.

(** The component as first mounted; [best0] is what was parsed from storage. *)
Definition initialGame (best0 : Z) : Game :=
  mkGame false 0%Z best0 false initialPlayer [] noKeys 0 None None [] 1%positive.

(** App.js 52-64 *)
Definition resetGame (st : Game) : Game :=
  let st := set_playerRef initialPlayer st in
  let st := set_obstaclesRef [] st in
  let st := setScore (fun _ => 0%Z) st in
  let st := setGameOver false st in
  set_lastSpawnRef 0 st.

(** App.js 67-74 *)
Definition startGame (st : Game) : Game :=
  let st := resetGame st in
  let st := match animationRef st with
            | Some h => cancelAnimationFrame h st
            | None => st
            end in
  let st := setRunning true st in
  let st := set_lastTimeRef None st in
  let (h, st) := requestAnimationFrame st in
  set_animationRef (Some h) st.

(** App.js 77-85.  [score] and [best] are the closure's reads.  The
    [localStorage.getItem] of line 82 reads storage and drops the result. *)
Definition stopGame (v : View) (didLose : bool) (st : Game) : Game :=
  let st := setRunning false st in
  let st := setGameOver didLose st in
  let st := if (v_score v >? v_best v)%Z then setBest (v_score v) st else st in
  match animationRef st with
  | Some h => cancelAnimationFrame h st
  | None => st
  end.

(** ** Obstacles (App.js 144-160) *)

(** The object literal pushed by [spawnObstacle]. *)
Definition newObstacle (d : Draws) : Obstacle :=
  let gapH := randomBetween (d_gapH d) GAP_MIN GAP_MAX in
  let gapTop := randomBetween (d_gapTop d) 40 (GAME_HEIGHT - gapH - 40) in
  mkObstacle (GAME_WIDTH + 20) gapTop gapH OBSTACLE_WIDTH
             (OBSTACLE_SPEED + d_speed d * 0.4) false (d_now d + d_id d).

Definition spawnObstacle (d : Draws) (st : Game) : Game :=
  let st := set_obstaclesRef (obstaclesRef st ++ [newObstacle d]) st in
  if (10 <? List.length (obstaclesRef st))%nat
  then set_obstaclesRef (tl (obstaclesRef st)) st
  else st.

(** ** Player kinematics (App.js 163-190) *)

Definition updatePlayer (dt : Q) (st : Game) : Game :=
  let p := playerRef st in
  let p := if keysRef st "ArrowLeft"%string
           then set_x (p_x p - HORIZ_SPEED) p else p in
  let p := if keysRef st "ArrowRight"%string
           then set_x (p_x p + HORIZ_SPEED) p else p in
  let p := set_x (Qmax 0 (Qmin (GAME_WIDTH - p_width p) (p_x p))) p in
  let p := set_vy (p_vy p + GRAVITY * Qmin (dt / FRAME_MS) 2) p in
  let p := set_y (p_y p + p_vy p * (dt / FRAME_MS)) p in
  let p := set_y (Qmax 0 (Qmin (GAME_HEIGHT - p_height p) (p_y p))) p in
  let p := if Qgtb (p_y p + p_height p) GAME_HEIGHT
           then set_vy 0 (set_y (GAME_HEIGHT - p_height p) p) else p in
  let p := if Qltb (p_y p) 0
           then set_vy 0 (set_y 0 p) else p in
  set_playerRef p st.

(** The value of [p.y] on line 177, before the clamp of line 180. *)
Definition freeY (dt : Q) (p : Player) : Q :=
  p_y p + (p_vy p + GRAVITY * Qmin (dt / FRAME_MS) 2) * (dt / FRAME_MS).

(** ** World stepper (App.js 194-206) *)

(** Line 197: the obstacle after its motion. *)
Definition advance (dt : Q) (ob : Obstacle) : Obstacle :=
  set_ob_x (ob_x ob - ob_speed ob * (dt / FRAME_MS)) ob.

(** Line 199: the scoring test, on the obstacle after its motion. *)
Definition justPassed (px : Q) (ob : Obstacle) : bool :=
  negb (ob_passed ob) && Qltb (ob_x ob + ob_width ob) px.

(** The [for] loop of lines 196-203, threading the list and the score cell. *)
Fixpoint forObstacles (dt px : Q) (obs : list Obstacle) (st : Game)
  : list Obstacle * Game :=
  match obs with
  | [] => ([], st)
  | ob :: rest =>
      let ob := advance dt ob in
      if justPassed px ob
      then let (rest', st') := forObstacles dt px rest (setScore Z.succ st) in
           (set_ob_passed true ob :: rest', st')
      else let (rest', st') := forObstacles dt px rest st in
           (ob :: rest', st')
  end.

Definition updateObstacles (dt : Q) (st : Game) : Game :=
  let (obs, st) :=
    forObstacles dt (p_x (playerRef st)) (obstaclesRef st) st in
  set_obstaclesRef
    (filter (fun o => Qgtb (ob_x o + ob_width o) (-50)) obs) st.

(** ** Collisions (App.js 209-241) *)

Definition rectIntersect (p : Player) (r : Rect) : bool :=
  negb (Qltb (p_x p + p_width p) (r_x r)
        || Qgtb (p_x p) (r_x r + r_w r)
        || Qltb (p_y p + p_height p) (r_y r)
        || Qgtb (p_y p) (r_y r + r_h r)).

Definition topRect (ob : Obstacle) : Rect :=
  mkRect (ob_x ob) 0 (ob_width ob) (ob_gapTop ob).

Definition bottomRect (ob : Obstacle) : Rect :=
  mkRect (ob_x ob) (ob_gapTop ob + ob_gapHeight ob) (ob_width ob)
         (GAME_HEIGHT - (ob_gapTop ob + ob_gapHeight ob)).

(** The [for] loop of lines 211-231, with its early [return]. *)
Fixpoint forCollisions (v : View) (p : Player) (obs : list Obstacle)
  (st : Game) : Game :=
  match obs with
  | [] => st
  | ob :: rest =>
      if rectIntersect p (topRect ob) || rectIntersect p (bottomRect ob)
      then stopGame v true st
      else forCollisions v p rest st
  end.

Definition detectCollisions (v : View) (st : Game) : Game :=
  forCollisions v (playerRef st) (obstaclesRef st) st.

(** ** The frame loop (App.js 122-141) *)

(** [!lastTimeRef.current]: [null] and [0] are both falsy. *)
Definition unset (t : option Q) : bool :=
  match t with
  | None => true
  | Some q => Qeq_bool q 0
  end.

Definition loop (v : View) (timestamp : Q) (d : Draws) (st : Game) : Game :=
  let prev := if unset (lastTimeRef st) then timestamp
              else match lastTimeRef st with Some q => q | None => timestamp end in
  let dt := timestamp - prev in
  let st := set_lastTimeRef (Some timestamp) st in
  let st := if Qgtb (timestamp - lastSpawnRef st) OBSTACLE_INTERVAL
               || Qeq_bool (lastSpawnRef st) 0
            then set_lastSpawnRef timestamp (spawnObstacle d st)
            else st in
  let st := updatePlayer dt st in
  let st := updateObstacles dt st in
  let st := detectCollisions v st in
  if v_running v
  then let (h, st) := requestAnimationFrame st in set_animationRef (Some h) st
  else st.

(** ** Keyboard (App.js 89-111) and buttons (App.js 271-272) *)

Definition onKeyDown (v : View) (code : string) (st : Game) : Game :=
  let st := set_keysRef (setKey code true (keysRef st)) st in
  let st := if v_running v
               && (String.eqb code "Space" || String.eqb code "ArrowUp")
            then let p := playerRef st in
                 let p := set_vy JUMP_VELOCITY p in
                 let p := set_y (p_y p - 2) p in
                 set_playerRef p st
            else st in
  if negb (v_running v) && v_gameOver v && String.eqb code "Enter"
  then startGame st
  else st.

Definition onKeyUp (code : string) (st : Game) : Game :=
  set_keysRef (setKey code false (keysRef st)) st.

Definition onStartClick (st : Game) : Game := startGame st.
Definition onRestartClick (st : Game) : Game := startGame st.

(** ** Runs of the component *)

(** What can happen to the mounted component.  A frame callback carries the
    view of the render whose [loop] was handed to the browser; it runs only
    while its handle is pending, and the browser takes the handle out of its
    table before the call. *)
Inductive Event :=
| Frame (h : positive) (v : View) (timestamp : Q) (d : Draws)
| KeyDown (v : View) (code : string)
| KeyUp (code : string)
| StartClick
| RestartClick.

Definition pending (h : positive) (st : Game) : bool :=
  existsb (Pos.eqb h) (frames st).

Definition handle (e : Event) (st : Game) : Game :=
  match e with
  | Frame h v timestamp d =>
      if pending h st
      then loop v timestamp d (cancelAnimationFrame h st)
      else st
  | KeyDown v code => onKeyDown v code st
  | KeyUp code => onKeyUp code st
  | StartClick => onStartClick st
  | RestartClick => onRestartClick st
  end.

Definition run (evs : list Event) (st : Game) : Game :=
  fold_left (fun s e => handle e s) evs st.

(** * Vocabulary of the properties *)

(** The closed region of the player's rectangle. *)
Definition inPlayer (p : Player) (u v : Q) : Prop :=
  p_x p <= u /\ u <= p_x p + p_width p /\
  p_y p <= v /\ v <= p_y p + p_height p.

(** The closed region of a barrier rectangle. *)
Definition inRect (r : Rect) (u v : Q) : Prop :=
  r_x r <= u /\ u <= r_x r + r_w r /\
  r_y r <= v /\ v <= r_y r + r_h r.

(** The number is a whole number. *)
Definition integral (q : Q) : Prop := exists z : Z, q == inject_Z z.

(** One outcome of the random source and the clock. *)
Definition sampleDraws : Draws := mkDraws 0.5 0.25 0.75 0.125 1000.

(** Lines 166-171: the horizontal position after the two key tests. *)
Definition steerX (k : Keys) (x : Q) : Q :=
  let x := if k "ArrowLeft"%string then x - HORIZ_SPEED else x in
  if k "ArrowRight"%string then x + HORIZ_SPEED else x.

(** The player rectangle lies inside the world. *)
Definition inBounds (p : Player) : Prop :=
  0 <= p_x p /\ p_x p <= GAME_WIDTH - p_width p /\
  0 <= p_y p /\ p_y p <= GAME_HEIGHT - p_height p.

(** The player has the size every [playerRef] object is created with. *)
Definition sized (p : Player) : Prop :=
  p_width p = PLAYER_SIZE /\ p_height p = PLAYER_SIZE.

(** The player resting on the floor, and pressed against the ceiling just
    after a jump. *)
Definition onFloor : Game :=
  set_playerRef (mkPlayer 175 466 0 PLAYER_SIZE PLAYER_SIZE) (initialGame 0).

(** See [onFloor]. *)
Definition atCeiling : Game :=
  set_playerRef (mkPlayer 175 0 JUMP_VELOCITY PLAYER_SIZE PLAYER_SIZE)
                (initialGame 0).

(** The mounted component with ArrowLeft and ArrowRight both held. *)
Definition bothHeld : Game :=
  set_keysRef (setKey "ArrowRight" true (setKey "ArrowLeft" true noKeys))
              (initialGame 0).

(** One turn of the [for] loop on one obstacle. *)
Definition stepObstacle (dt px : Q) (ob : Obstacle) : Obstacle :=
  if justPassed px (advance dt ob)
  then set_ob_passed true (advance dt ob)
  else advance dt ob.

(** The obstacle scores in this call. *)
Definition scoresNow (dt px : Q) (ob : Obstacle) : bool :=
  justPassed px (advance dt ob).

(** The obstacle survives the filter of line 205. *)
Definition onScreen (o : Obstacle) : bool :=
  Qgtb (ob_x o + ob_width o) (-50).

(** Obstacles that have not scored yet. *)
Definition unpassed (obs : list Obstacle) : nat :=
  List.length (filter (fun o => negb (ob_passed o)) obs).

(** Calls of [updateObstacles] one after the other, the player standing
    anywhere before each. *)
Fixpoint repeatUpdate (calls : list (Q * Player)) (st : Game) : Game :=
  match calls with
  | [] => st
  | (dt, p) :: rest =>
      repeatUpdate rest (updateObstacles dt (set_playerRef p st))
  end.

(** Lines 123-134: everything [loop] does before it looks for collisions. *)
Definition tick (timestamp : Q) (d : Draws) (st : Game) : Game :=
  let prev := if unset (lastTimeRef st) then timestamp
              else match lastTimeRef st with Some q => q | None => timestamp end in
  let dt := timestamp - prev in
  let st := set_lastTimeRef (Some timestamp) st in
  let st := if Qgtb (timestamp - lastSpawnRef st) OBSTACLE_INTERVAL
               || Qeq_bool (lastSpawnRef st) 0
            then set_lastSpawnRef timestamp (spawnObstacle d st)
            else st in
  updateObstacles dt (updatePlayer dt st).

(** The part of the state that the physics never touches. *)
Definition sameControl (a b : Game) : Prop :=
  running a = running b /\ gameOver a = gameOver b /\ best a = best b /\
  animationRef a = animationRef b /\ frames a = frames b /\
  nextHandle a = nextHandle b /\ keysRef a = keysRef b.

(** Some live obstacle's top or bottom barrier meets the player. *)
Definition collides (st : Game) : bool :=
  existsb (fun ob => rectIntersect (playerRef st) (topRect ob)
                     || rectIntersect (playerRef st) (bottomRect ob))
          (obstaclesRef st).

(** The player of a game in progress, its right edge flush against the left
    edge of an obstacle at [x = 134] whose top barrier reaches down to 210. *)
Definition flushPlayer : Player := mkPlayer 100 200 0 PLAYER_SIZE PLAYER_SIZE.

(** See [flushPlayer]. *)
Definition flushObstacle : Obstacle :=
  mkObstacle 134 210 150 OBSTACLE_WIDTH OBSTACLE_SPEED false 7.

(** A game in progress with score 3 and best 1; the obstacle's bottom
    barrier overlaps the player, the frame with handle 1 is pending. *)
Definition aboutToHit : Game :=
  mkGame true 3 1 false
         (mkPlayer 175 250 0 PLAYER_SIZE PLAYER_SIZE)
         [mkObstacle 180 40 120 OBSTACLE_WIDTH OBSTACLE_SPEED false 7]
         noKeys 1000 (Some 1%positive) (Some 1000) [1%positive] 2%positive.

(** The simulation state of the session: what [resetGame] and [startGame]
    set, without the frame handles of the browser. *)
Record Engine := mkEngine {
  e_running : bool;
  e_gameOver : bool;
  e_score : Z;
  e_best : Z;
  e_player : Player;
  e_obstacles : list Obstacle;
  e_lastSpawn : Q;
  e_lastTime : option Q
}.

(** The engine state of a component. *)
Definition engine (st : Game) : Engine :=
  mkEngine (running st) (gameOver st) (score st) (best st) (playerRef st)
           (obstaclesRef st) (lastSpawnRef st) (lastTimeRef st).

(** A game in progress: two obstacles not yet passed, the first about to
    leave the player behind, the second far to the right. *)
Definition inProgress : Game :=
  mkGame true 0 0 false
         (mkPlayer 175 250 0 PLAYER_SIZE PLAYER_SIZE)
         [mkObstacle 106 100 150 OBSTACLE_WIDTH OBSTACLE_SPEED false 7;
          mkObstacle 420 100 150 OBSTACLE_WIDTH OBSTACLE_SPEED false 8]
         noKeys 1000 (Some 1%positive) (Some 1000) [1%positive] 2%positive.

(** ** Vocabulary of the further properties *)

(** The run state that the two cells [running] and [gameOver] encode. *)
Inductive Mode := Idle | Running | GameOver | RunningAndOver.

Definition mode (st : Game) : Mode :=
  match running st, gameOver st with
  | false, false => Idle
  | true, false => Running
  | false, true => GameOver
  | true, true => RunningAndOver
  end.

(** At most one frame is pending, and [animationRef] holds its handle. *)
Definition onePending (st : Game) : Prop :=
  frames st = [] \/ exists h, frames st = [h] /\ animationRef st = Some h.

(** The session is in one of its three modes; while Idle nothing has been
    scheduled. *)
Definition modeOk (st : Game) : Prop :=
  mode st <> RunningAndOver /\ (mode st = Idle -> frames st = []).

(** What every obstacle in the list looks like: the fixed width, a speed in
    [3.2, 3.6), the gap within its limits, and the right edge not yet past
    the removal line. *)
Definition liveObstacle (ob : Obstacle) : Prop :=
  ob_width ob = OBSTACLE_WIDTH /\
  OBSTACLE_SPEED <= ob_speed ob /\ ob_speed ob < OBSTACLE_SPEED + 0.4 /\
  GAP_MIN <= ob_gapHeight ob /\ ob_gapHeight ob <= GAP_MAX /\
  40 <= ob_gapTop ob /\ ob_gapTop ob <= GAME_HEIGHT - ob_gapHeight ob - 40 /\
  -50 < ob_x ob + ob_width ob.

(** The frames of a run draw their random numbers in [0,1). *)
Definition drawsOk (e : Event) : Prop :=
  match e with
  | Frame _ _ _ d => draws_ok d
  | _ => True
  end.

(** The player is clear of an obstacle: beside it, or strictly inside its
    gap. *)
Definition clearOf (p : Player) (ob : Obstacle) : Prop :=
  p_x p + p_width p < ob_x ob \/
  ob_x ob + ob_width ob < p_x p \/
  (ob_gapTop ob < p_y p /\
   p_y p + p_height p < ob_gapTop ob + ob_gapHeight ob).

(** The test of line 227 for one obstacle. *)
Definition hits (p : Player) (ob : Obstacle) : bool :=
  rectIntersect p (topRect ob) || rectIntersect p (bottomRect ob).

(** The event is a click on Start or Restart, or the Enter key seen by a
    handler whose render shows the game over. *)
Definition starts (e : Event) : Prop :=
  match e with
  | StartClick | RestartClick => True
  | KeyDown v code =>
      negb (v_running v) && v_gameOver v && String.eqb code "Enter" = true
  | _ => False
  end.

(** The event is a frame callback. *)
Definition isFrame (e : Event) : Prop :=
  match e with
  | Frame _ _ _ _ => True
  | _ => False
  end.

(** The moves of the session: an event leaves the mode alone, or starts a
    game, or is the frame that ends a running game. *)
Definition modeStep (e : Event) (m m' : Mode) : Prop :=
  m' = m \/
  (m' = Running /\ starts e) \/
  (m = Running /\ m' = GameOver /\ isFrame e).

(** A short run: a click on Start, then the frame it requested. *)
Definition shortRun : list Event :=
  [StartClick; Frame 1 (mkView true 0 0 false) 1000 sampleDraws].

(** The time step of line 124: the timestamp less the stored time, or zero
    when no time is stored. *)
Definition frameDt (timestamp : Q) (st : Game) : Q :=
  timestamp -
  (if unset (lastTimeRef st) then timestamp
   else match lastTimeRef st with Some q => q | None => timestamp end).

(** Only the key is recorded. *)
Definition keyRecorded (code : string) (st : Game) : Game :=
  set_keysRef (setKey code true (keysRef st)) st.

(** A player falling at speed 3, and a frame time two and a half frames
    later. *)
Definition falling : Game :=
  set_playerRef (mkPlayer 175 100 3 PLAYER_SIZE PLAYER_SIZE) (initialGame 0).

(** The player three units from the left wall, ArrowLeft held. *)
Definition leftHeld : Game :=
  set_keysRef (setKey "ArrowLeft" true noKeys)
    (set_playerRef (mkPlayer 3 250 0 PLAYER_SIZE PLAYER_SIZE) (initialGame 0)).

(** A game in progress whose last frame was at time 1000, the player
    falling. *)
Definition midGame : Game :=
  mkGame true 0 0 false
         (mkPlayer 175 100 3 PLAYER_SIZE PLAYER_SIZE) []
         noKeys 1000 (Some 1%positive) (Some 1000) [1%positive] 2%positive.

(** A player in the middle of the gap of an obstacle it overlaps
    horizontally. *)
Definition inGap : Game :=
  mkGame true 0 0 false
         (mkPlayer 175 150 0 PLAYER_SIZE PLAYER_SIZE)
         [mkObstacle 180 100 150 OBSTACLE_WIDTH OBSTACLE_SPEED false 7]
         noKeys 1000 (Some 1%positive) (Some 1000) [] 2%positive.

(** The test of line 128: a spawn is due. *)
Definition spawnDue (timestamp : Q) (st : Game) : bool :=
  Qgtb (timestamp - lastSpawnRef st) OBSTACLE_INTERVAL
  || Qeq_bool (lastSpawnRef st) 0.

(** An obstacle on its way across the field. *)
Definition crossing : Obstacle :=
  mkObstacle 400 100 150 OBSTACLE_WIDTH 3.5 false 7.

(** What holds of the player at every moment, between frames too. *)
Definition playerOk (p : Player) : Prop :=
  sized p /\ 0 <= p_x p /\ p_x p <= GAME_WIDTH - p_width p /\
  p_y p <= GAME_HEIGHT - p_height p.

(** Two presses of Space before the next frame, the player near the
    ceiling. *)
Definition nearCeiling : Game :=
  mkGame true 0 0 false
         (mkPlayer 175 3 0 PLAYER_SIZE PLAYER_SIZE) []
         noKeys 1000 (Some 1%positive) (Some 1000) [1%positive] 2%positive.

(** ** Vocabulary of the frames the component delivers *)

(** The frame callback reads [running] as false.  The [loop] that
    [startGame] hands to the browser belongs to the render in which
    [startGame] was called, and [startGame] is only reachable from a render
    that is not running (the Start and Restart buttons of lines 348-360, the
    Enter test of line 105); see [closure_reads_stopped]. *)
Definition readsStopped (e : Event) : Prop :=
  match e with
  | Frame _ v _ _ => v_running v = false
  | _ => True
  end.



(** The test of line 105. *)
Definition restarts (v : View) (code : string) : bool :=
  negb (v_running v) && v_gameOver v && String.eqb code "Enter".

(** The closures of a run.  [w] is the view of the render whose [loop] was
    last handed to the browser.  A frame carries [w].  A click is handled by
    the latest render, on a button that render shows: Start while neither
    running nor over, Restart while over.  A key press is handled by the
    listener of the effect of lines 88-119, registered again whenever
    [running] or [gameOver] changes, so it reads these two as they are. *)
Fixpoint closureRun (w : View) (evs : list Event) (st : Game) : Prop :=
  match evs with
  | [] => True
  | e :: rest =>
      match e with
      | Frame _ v _ _ => v = w /\ closureRun w rest (handle e st)
      | KeyDown v code =>
          v_running v = running st /\ v_gameOver v = gameOver st /\
          closureRun (if restarts v code then v else w) rest (handle e st)
      | KeyUp _ => closureRun w rest (handle e st)
      | StartClick =>
          running st = false /\ gameOver st = false /\
          closureRun (view_of st) rest (handle e st)
      | RestartClick =>
          gameOver st = true /\
          closureRun (view_of st) rest (handle e st)
      end
  end.



(** * Properties *)

(** Case split on every conditional left in the goal. *)
Ltac split_ifs :=
  repeat match goal with
         | |- context [if ?c then _ else _] => destruct c
         end.

(** ** Comparisons *)

Lemma Qltb_lt (a b : Q) : Qltb a b = true <-> a < b.
Proof.
  unfold Qltb. rewrite Qlt_alt.
  destruct (a ?= b); split; intro H; congruence.
Qed.

Lemma Qltb_ge (a b : Q) : Qltb a b = false <-> b <= a.
Proof.
  rewrite <- not_true_iff_false, Qltb_lt. split.
  - apply Qnot_lt_le.
  - apply Qle_not_lt.
Qed.

Lemma Qgtb_gt (a b : Q) : Qgtb a b = true <-> b < a.
Proof. apply Qltb_lt. Qed.

Lemma Qgtb_le (a b : Q) : Qgtb a b = false <-> a <= b.
Proof. apply Qltb_ge. Qed.

(** The clamp [Math.max(lo, Math.min(hi, v))] lands in [[lo, hi]] as soon
    as the interval is not empty. *)
Lemma clamp_bounds (lo hi v : Q) :
  lo <= hi -> lo <= Qmax lo (Qmin hi v) /\ Qmax lo (Qmin hi v) <= hi.
Proof.
  intro H. split.
  - apply Q.le_max_l.
  - apply Q.max_lub; [exact H | apply Q.le_min_l].
Qed.

(** Inside the interval the clamp is the identity. *)
Lemma clamp_inside (lo hi v : Q) :
  lo <= v -> v <= hi -> Qmax lo (Qmin hi v) == v.
Proof.
  intros H1 H2. rewrite (Q.min_r hi v H2). apply Q.max_r. exact H1.
Qed.

(** ** Geometry *)

Lemma rectIntersect_true (p : Player) (r : Rect) :
  rectIntersect p r = true <->
  r_x r <= p_x p + p_width p /\ p_x p <= r_x r + r_w r /\
  r_y r <= p_y p + p_height p /\ p_y p <= r_y r + r_h r.
Proof.
  unfold rectIntersect.
  rewrite negb_true_iff, !orb_false_iff, !Qltb_ge, !Qgtb_le. tauto.
Qed.

(** ** The obstacle generator *)

(** [Math.floor(r * n)] for a draw [r] in [0,1) and a positive integer [n]
    is one of [0 .. n-1]. *)
Lemma floor_scaled (r : Q) (n : Z) :
  unit_draw r -> (0 < n)%Z ->
  (0 <= Qfloor (r * inject_Z n) <= n - 1)%Z.
Proof.
  intros [H0 H1] Hn.
  assert (Hq : 0 < inject_Z n) by (rewrite (Zlt_Qlt 0 n) in Hn; exact Hn).
  split.
  - change 0%Z with (Qfloor 0). apply Qfloor_resp_le.
    apply Qmult_le_0_compat; lra.
  - assert (L : (Qfloor (r * inject_Z n) < n)%Z).
    { rewrite Zlt_Qlt.
      apply Qle_lt_trans with (r * inject_Z n); [apply Qfloor_le |].
      setoid_replace (inject_Z n) with (1 * inject_Z n) at 2 by ring.
      apply Qmult_lt_compat_r; assumption. }
    lia.
Qed.

(** [randomBetween] over an integer span [a .. a+k] returns [a + j] for an
    integer [0 <= j <= k]. *)
Lemma randomBetween_spec (r a b : Q) (k : Z) :
  unit_draw r -> (0 <= k)%Z -> b - a == inject_Z k ->
  exists j : Z, (0 <= j <= k)%Z /\ randomBetween r a b = inject_Z j + a.
Proof.
  intros Hr Hk E. exists (Qfloor (r * (b - a + 1))). split; [| reflexivity].
  assert (E1 : r * (b - a + 1) == r * inject_Z (k + 1)).
  { rewrite inject_Z_plus, <- E. reflexivity. }
  rewrite E1.
  pose proof (floor_scaled r (k + 1) Hr ltac:(lia)). lia.
Qed.

(** What [randomBetween] makes of the two gap draws. *)
Lemma newObstacle_gap (d : Draws) :
  unit_draw (d_gapH d) -> unit_draw (d_gapTop d) ->
  exists i j : Z,
    (0 <= i <= 60)%Z /\ (0 <= j <= 300 - i)%Z /\
    ob_gapHeight (newObstacle d) == inject_Z i + 120 /\
    ob_gapTop (newObstacle d) == inject_Z j + 40.
Proof.
  intros H1 H2. unfold newObstacle. cbn [ob_gapHeight ob_gapTop].
  destruct (randomBetween_spec (d_gapH d) GAP_MIN GAP_MAX 60 H1 ltac:(lia))
    as (i & Hi & Ei); [reflexivity |].
  rewrite Ei.
  destruct (randomBetween_spec (d_gapTop d) 40
              (GAME_HEIGHT - (inject_Z i + GAP_MIN) - 40) (300 - i) H2
              ltac:(lia)) as (j & Hj & Ej).
  { unfold GAME_HEIGHT, GAP_MIN. unfold Z.sub at 1.
    rewrite inject_Z_plus, inject_Z_opp. ring. }
  rewrite Ej. exists i, j. unfold GAP_MIN. repeat split; try lia; reflexivity.
Qed.

Lemma inject_Z_between (z lo hi : Z) :
  (lo <= z <= hi)%Z -> inject_Z lo <= inject_Z z /\ inject_Z z <= inject_Z hi.
Proof. intros [A B]. split; rewrite <- Zle_Qle; assumption. Qed.

(** [spawnObstacle] leaves the new obstacle at the end of the list. *)
Lemma spawnObstacle_last (d : Draws) (st : Game) :
  exists older, obstaclesRef (spawnObstacle d st) = older ++ [newObstacle d].
Proof.
  unfold spawnObstacle. cbn [obstaclesRef set_obstaclesRef].
  destruct (10 <? List.length (obstaclesRef st ++ [newObstacle d]))%nat eqn:E.
  - cbn [obstaclesRef set_obstaclesRef].
    destruct (obstaclesRef st) as [| o l] eqn:El.
    + simpl in E. discriminate.
    + exists l. reflexivity.
  - exists (obstaclesRef st). reflexivity.
Qed.

(** C6. Whatever the random source draws in [0,1), the obstacle that
    [spawnObstacle] appends has [GAP_MIN <= gapHeight <= GAP_MAX] and
    [40 <= gapTop <= GAME_HEIGHT - gapHeight - 40], so its top and bottom
    barrier rectangles are both at least 40 high. *)
Theorem spawnObstacle_gap_bounds (d : Draws) (st : Game) :
  draws_ok d ->
  exists older ob,
    obstaclesRef (spawnObstacle d st) = older ++ [ob] /\
    GAP_MIN <= ob_gapHeight ob /\ ob_gapHeight ob <= GAP_MAX /\
    40 <= ob_gapTop ob /\
    ob_gapTop ob <= GAME_HEIGHT - ob_gapHeight ob - 40 /\
    40 <= r_h (topRect ob) /\ 40 <= r_h (bottomRect ob).
Proof.
  intros (H1 & H2 & _ & _).
  destruct (spawnObstacle_last d st) as [older E].
  exists older, (newObstacle d). split; [exact E |].
  destruct (newObstacle_gap d H1 H2) as (i & j & Hi & Hj & Ei & Ej).
  cbn [r_h topRect bottomRect]. rewrite Ei, Ej.
  unfold GAP_MIN, GAP_MAX, GAME_HEIGHT.
  destruct (inject_Z_between i 0 60 Hi) as [I0 I1].
  destruct (inject_Z_between j 0 (300 - i) Hj) as [J0 J1].
  unfold Z.sub in J1. rewrite inject_Z_plus, inject_Z_opp in J1.
  change (inject_Z 0) with 0 in *. change (inject_Z 60) with 60 in *.
  change (inject_Z 300) with 300 in *.
  repeat split; lra.
Qed.

Lemma spawnObstacle_gap_bounds_witness :
  draws_ok sampleDraws /\
  exists older ob,
    obstaclesRef (spawnObstacle sampleDraws (initialGame 0)) = older ++ [ob] /\
    GAP_MIN <= ob_gapHeight ob /\ ob_gapHeight ob <= GAP_MAX /\
    40 <= ob_gapTop ob /\
    ob_gapTop ob <= GAME_HEIGHT - ob_gapHeight ob - 40 /\
    40 <= r_h (topRect ob) /\ 40 <= r_h (bottomRect ob).
Proof.
  assert (H : draws_ok sampleDraws).
  { unfold draws_ok, unit_draw, sampleDraws. simpl. repeat split; lra. }
  split; [exact H |].
  apply (spawnObstacle_gap_bounds sampleDraws (initialGame 0) H).
Defined.

(** C10. Whatever the random source draws in [0,1), the obstacle that
    [spawnObstacle] appends has an integer [gapHeight] and an integer
    [gapTop]; [randomBetween] on an integer range [a .. b] returns an integer
    between [a] and [b], both included. *)
Theorem spawnObstacle_gap_integral (d : Draws) (st : Game) :
  draws_ok d ->
  (exists older ob,
     obstaclesRef (spawnObstacle d st) = older ++ [ob] /\
     integral (ob_gapHeight ob) /\ integral (ob_gapTop ob))
  /\ (forall (r : Q) (a b : Z),
        unit_draw r -> (a <= b)%Z ->
        exists z : Z,
          (a <= z <= b)%Z /\
          randomBetween r (inject_Z a) (inject_Z b) == inject_Z z).
Proof.
  intros (H1 & H2 & _ & _). split.
  - destruct (spawnObstacle_last d st) as [older E].
    exists older, (newObstacle d). split; [exact E |].
    destruct (newObstacle_gap d H1 H2) as (i & j & _ & _ & Ei & Ej).
    split.
    + exists (i + 120)%Z. rewrite Ei, inject_Z_plus. reflexivity.
    + exists (j + 40)%Z. rewrite Ej, inject_Z_plus. reflexivity.
  - intros r a b Hr Hab.
    destruct (randomBetween_spec r (inject_Z a) (inject_Z b) (b - a) Hr
                ltac:(lia)) as (j & Hj & Ej).
    { unfold Z.sub. rewrite inject_Z_plus, inject_Z_opp. ring. }
    exists (j + a)%Z. split; [lia |].
    rewrite Ej, inject_Z_plus. reflexivity.
Qed.

Lemma spawnObstacle_gap_integral_witness :
  draws_ok sampleDraws /\
  ((exists older ob,
     obstaclesRef (spawnObstacle sampleDraws (initialGame 0)) = older ++ [ob] /\
     integral (ob_gapHeight ob) /\ integral (ob_gapTop ob))
  /\ (forall (r : Q) (a b : Z),
        unit_draw r -> (a <= b)%Z ->
        exists z : Z,
          (a <= z <= b)%Z /\
          randomBetween r (inject_Z a) (inject_Z b) == inject_Z z)).
Proof.
  assert (H : draws_ok sampleDraws).
  { unfold draws_ok, unit_draw, sampleDraws. simpl. repeat split; lra. }
  split; [exact H |].
  apply (spawnObstacle_gap_integral sampleDraws (initialGame 0) H).
Defined.

(** ** Player kinematics *)

Lemma updatePlayer_x (dt : Q) (st : Game) :
  p_x (playerRef (updatePlayer dt st)) =
  Qmax 0 (Qmin (GAME_WIDTH - p_width (playerRef st))
               (steerX (keysRef st) (p_x (playerRef st)))).
Proof.
  unfold updatePlayer, steerX.
  destruct (keysRef st "ArrowLeft"%string), (keysRef st "ArrowRight"%string);
    cbn -[Qmax Qmin Qltb Qgtb Qplus Qminus Qmult Qdiv];
    split_ifs; reflexivity.
Qed.

Lemma updatePlayer_size (dt : Q) (st : Game) :
  p_width (playerRef (updatePlayer dt st)) = p_width (playerRef st) /\
  p_height (playerRef (updatePlayer dt st)) = p_height (playerRef st).
Proof.
  unfold updatePlayer.
  destruct (keysRef st "ArrowLeft"%string), (keysRef st "ArrowRight"%string);
    cbn -[Qmax Qmin Qltb Qgtb Qplus Qminus Qmult Qdiv];
    split_ifs; split; reflexivity.
Qed.

(** When the player fits in the world, the two tests of lines 183-190 never
    fire: line 180 has already brought [y] into range. *)
Lemma updatePlayer_vertical (dt : Q) (st : Game) :
  p_height (playerRef st) <= GAME_HEIGHT ->
  p_y (playerRef (updatePlayer dt st)) =
    Qmax 0 (Qmin (GAME_HEIGHT - p_height (playerRef st))
                 (freeY dt (playerRef st)))
  /\ p_vy (playerRef (updatePlayer dt st)) =
    p_vy (playerRef st) + GRAVITY * Qmin (dt / FRAME_MS) 2.
Proof.
  intro Hh. unfold updatePlayer, freeY.
  set (y1 := Qmax 0 (Qmin (GAME_HEIGHT - p_height (playerRef st))
     (p_y (playerRef st)
      + (p_vy (playerRef st) + GRAVITY * Qmin (dt / FRAME_MS) 2)
        * (dt / FRAME_MS)))).
  assert (B : 0 <= y1 /\ y1 <= GAME_HEIGHT - p_height (playerRef st)).
  { apply clamp_bounds. lra. }
  assert (F1 : Qgtb (y1 + p_height (playerRef st)) GAME_HEIGHT = false).
  { apply Qgtb_le. lra. }
  assert (F2 : Qltb y1 0 = false).
  { apply Qltb_ge. lra. }
  destruct (keysRef st "ArrowLeft"%string), (keysRef st "ArrowRight"%string);
    cbn -[Qmax Qmin Qltb Qgtb Qplus Qminus Qmult Qdiv];
    fold y1; rewrite F1;
    cbn -[Qmax Qmin Qltb Qgtb Qplus Qminus Qmult Qdiv];
    rewrite F2; split; reflexivity.
Qed.

Lemma updatePlayer_inBounds (dt : Q) (st : Game) :
  sized (playerRef st) -> inBounds (playerRef (updatePlayer dt st)).
Proof.
  intros [Hw Hh]. unfold inBounds.
  destruct (updatePlayer_size dt st) as [Ew Eh].
  destruct (updatePlayer_vertical dt st) as [Ey _].
  { rewrite Hh. unfold PLAYER_SIZE, GAME_HEIGHT. lra. }
  rewrite Ew, Eh, Ey, updatePlayer_x, Hw, Hh.
  pose proof (clamp_bounds 0 (GAME_WIDTH - PLAYER_SIZE)
                (steerX (keysRef st) (p_x (playerRef st)))) as Bx.
  pose proof (clamp_bounds 0 (GAME_HEIGHT - PLAYER_SIZE)
                (freeY dt (playerRef st))) as By.
  unfold GAME_WIDTH, GAME_HEIGHT, PLAYER_SIZE in *.
  destruct Bx; [lra |]. destruct By; [lra |]. tauto.
Qed.

(** C1. [updatePlayer] clamps [y] but does not zero [vy] when the clamp
    engages: on the floor one frame of 16.6667 ms would carry [y] past
    [GAME_HEIGHT - height], [y] is brought back to 466, and [vy] comes out as
    0.9, then 1.8 after a second frame; against the ceiling [y] would go
    below 0, is brought back to 0, and [vy] comes out as -13.1. *)
Theorem updatePlayer_clamp_keeps_vy :
  (GAME_HEIGHT - p_height (playerRef onFloor) < freeY FRAME_MS (playerRef onFloor)
   /\ p_y (playerRef (updatePlayer FRAME_MS onFloor)) == 466
   /\ p_vy (playerRef (updatePlayer FRAME_MS onFloor)) == 0.9
   /\ ~ p_vy (playerRef (updatePlayer FRAME_MS onFloor)) == 0
   /\ p_vy (playerRef (updatePlayer FRAME_MS (updatePlayer FRAME_MS onFloor)))
      == 1.8)
  /\ (freeY FRAME_MS (playerRef atCeiling) < 0
      /\ p_y (playerRef (updatePlayer FRAME_MS atCeiling)) == 0
      /\ p_vy (playerRef (updatePlayer FRAME_MS atCeiling)) == -13.1
      /\ ~ p_vy (playerRef (updatePlayer FRAME_MS atCeiling)) == 0).
Proof. vm_compute. repeat split; reflexivity || discriminate. Qed.

(** In general: with the player no taller than the world, [updatePlayer]
    always returns [vy] grown by the gravity term, clamped or not. *)
Lemma updatePlayer_vy_never_reset (dt : Q) (st : Game) :
  p_height (playerRef st) <= GAME_HEIGHT ->
  p_vy (playerRef (updatePlayer dt st)) ==
  p_vy (playerRef st) + GRAVITY * Qmin (dt / FRAME_MS) 2.
Proof.
  intro H. destruct (updatePlayer_vertical dt st H) as [_ E].
  rewrite E. reflexivity.
Qed.

Lemma clamp_compat (lo hi a b : Q) :
  a == b -> Qmax lo (Qmin hi a) == Qmax lo (Qmin hi b).
Proof. intro E. rewrite E. reflexivity. Qed.

(** C8. From the same player, [updatePlayer] with both ArrowLeft and
    ArrowRight held yields the same [x] as with neither held. *)
Theorem updatePlayer_opposite_keys_cancel (dt dt' : Q) (both none : Game) :
  keysRef both "ArrowLeft"%string = true ->
  keysRef both "ArrowRight"%string = true ->
  keysRef none "ArrowLeft"%string = false ->
  keysRef none "ArrowRight"%string = false ->
  playerRef both = playerRef none ->
  p_x (playerRef (updatePlayer dt both)) ==
  p_x (playerRef (updatePlayer dt' none)).
Proof.
  intros L R L' R' E.
  rewrite !updatePlayer_x. unfold steerX.
  rewrite L, R, L', R', E.
  apply clamp_compat. unfold HORIZ_SPEED. ring.
Qed.

Lemma updatePlayer_opposite_keys_cancel_witness :
  p_x (playerRef (updatePlayer FRAME_MS bothHeld)) ==
  p_x (playerRef (updatePlayer FRAME_MS (initialGame 0))).
Proof.
  apply (updatePlayer_opposite_keys_cancel FRAME_MS FRAME_MS bothHeld
           (initialGame 0)); reflexivity.
Defined.

(** The new player only depends on the old player and the keys. *)
Lemma updatePlayer_ext (dt : Q) (a b : Game) :
  playerRef a = playerRef b -> keysRef a = keysRef b ->
  playerRef (updatePlayer dt a) = playerRef (updatePlayer dt b).
Proof.
  intros Ep Ek. unfold updatePlayer. rewrite Ep, Ek. reflexivity.
Qed.

(** ** The world stepper *)

Lemma setScore_succ_add (n : nat) (st : Game) :
  setScore (fun s => (s + Z.of_nat n)%Z) (setScore Z.succ st) =
  setScore (fun s => (s + Z.of_nat (S n))%Z) st.
Proof.
  unfold setScore. cbn. f_equal. lia.
Qed.

Lemma forObstacles_spec (dt px : Q) (obs : list Obstacle) (st : Game) :
  forObstacles dt px obs st =
  (map (stepObstacle dt px) obs,
   setScore
     (fun s => (s + Z.of_nat (List.length (filter (scoresNow dt px) obs)))%Z)
     st).
Proof.
  revert st. induction obs as [| ob rest IH]; intro st.
  - cbn. f_equal. unfold setScore. destruct st; cbn. f_equal. lia.
  - cbn [forObstacles map filter]. unfold stepObstacle at 1, scoresNow at 1.
    destruct (justPassed px (advance dt ob)) eqn:E.
    + rewrite IH. cbn [List.length]. rewrite setScore_succ_add. reflexivity.
    + rewrite IH. reflexivity.
Qed.

Lemma updateObstacles_spec (dt : Q) (st : Game) :
  updateObstacles dt st =
  set_obstaclesRef
    (filter onScreen
       (map (stepObstacle dt (p_x (playerRef st))) (obstaclesRef st)))
    (setScore
       (fun s => (s + Z.of_nat (List.length
          (filter (scoresNow dt (p_x (playerRef st))) (obstaclesRef st))))%Z)
       st).
Proof.
  unfold updateObstacles. rewrite forObstacles_spec. reflexivity.
Qed.

Lemma scoresNow_iff (dt px : Q) (ob : Obstacle) :
  scoresNow dt px ob = true <->
  ob_passed ob = false /\
  ob_x ob - ob_speed ob * (dt / FRAME_MS) + ob_width ob < px.
Proof.
  unfold scoresNow, justPassed, advance. cbn [ob_passed ob_x ob_width set_ob_x].
  rewrite andb_true_iff, negb_true_iff, Qltb_lt. tauto.
Qed.

Lemma stepObstacle_passed (dt px : Q) (ob : Obstacle) :
  ob_passed (stepObstacle dt px ob) = ob_passed ob || scoresNow dt px ob.
Proof.
  unfold stepObstacle, scoresNow.
  destruct (justPassed px (advance dt ob)) eqn:E.
  - cbn. rewrite orb_true_r. reflexivity.
  - cbn. rewrite orb_false_r. reflexivity.
Qed.

(** Each point scored is paid for by one obstacle leaving the unpassed
    ones. *)
Lemma scored_plus_unpassed (dt px : Q) (obs : list Obstacle) :
  (List.length (filter (scoresNow dt px) obs)
   + unpassed (filter onScreen (map (stepObstacle dt px) obs))
   <= unpassed obs)%nat.
Proof.
  unfold unpassed. induction obs as [| ob rest IH]; [cbn; lia |].
  cbn [map filter].
  pose proof (stepObstacle_passed dt px ob) as P.
  assert (S : scoresNow dt px ob = true -> ob_passed ob = false).
  { intro H. apply scoresNow_iff in H. tauto. }
  destruct (scoresNow dt px ob), (ob_passed ob),
    (onScreen (stepObstacle dt px ob));
    cbn [filter negb List.length] in *; try rewrite P;
    cbn [negb filter List.length orb];
    try (specialize (S eq_refl); discriminate); lia.
Qed.

Lemma repeatUpdate_score (calls : list (Q * Player)) (st : Game) :
  (score st <= score (repeatUpdate calls st)
   <= score st + Z.of_nat (unpassed (obstaclesRef st)))%Z.
Proof.
  revert st. induction calls as [| [dt p] rest IH]; intro st.
  - cbn. lia.
  - cbn [repeatUpdate].
    specialize (IH (updateObstacles dt (set_playerRef p st))).
    assert (Es : score (updateObstacles dt (set_playerRef p st)) =
                 (score st + Z.of_nat (List.length
                    (filter (scoresNow dt (p_x p)) (obstaclesRef st))))%Z).
    { rewrite updateObstacles_spec. reflexivity. }
    assert (Eo : obstaclesRef (updateObstacles dt (set_playerRef p st)) =
                 filter onScreen
                   (map (stepObstacle dt (p_x p)) (obstaclesRef st))).
    { rewrite updateObstacles_spec. reflexivity. }
    rewrite Es, Eo in IH.
    pose proof (scored_plus_unpassed dt (p_x p) (obstaclesRef st)).
    lia.
Qed.

(** C4. One call of [updateObstacles] adds to the score the number of
    obstacles that were not marked passed and whose right edge, after the
    motion, is strictly left of the player's [x]; each of them is marked
    passed in the new list; an obstacle marked passed never scores and stays
    marked; and over any number of calls the score gains at most one point
    per obstacle that was not yet passed. *)
Theorem updateObstacles_scores_once (dt : Q) (st : Game) :
  let px := p_x (playerRef st) in
  (score (updateObstacles dt st) =
     score st
     + Z.of_nat (List.length (filter (scoresNow dt px) (obstaclesRef st))))%Z
  /\ obstaclesRef (updateObstacles dt st) =
     filter onScreen (map (stepObstacle dt px) (obstaclesRef st))
  /\ (forall ob,
        scoresNow dt px ob = true <->
        ob_passed ob = false /\
        ob_x ob - ob_speed ob * (dt / FRAME_MS) + ob_width ob < px)
  /\ (forall ob,
        ob_passed (stepObstacle dt px ob) = ob_passed ob || scoresNow dt px ob)
  /\ (forall ob dt' px',
        ob_passed ob = true ->
        scoresNow dt' px' ob = false /\
        ob_passed (stepObstacle dt' px' ob) = true)
  /\ (forall calls,
        (score st <= score (repeatUpdate calls st)
         <= score st + Z.of_nat (unpassed (obstaclesRef st)))%Z).
Proof.
  intro px. rewrite updateObstacles_spec.
  split; [reflexivity |]. split; [reflexivity |].
  split; [intro ob; apply scoresNow_iff |].
  split; [intro ob; apply stepObstacle_passed |].
  split; [| intro calls; apply repeatUpdate_score].
  intros ob dt' px' H.
  rewrite stepObstacle_passed, H. split; [| reflexivity].
  apply not_true_iff_false. intro T. apply scoresNow_iff in T.
  destruct T as [T _]. congruence.
Qed.

(** ** The frame loop *)

Lemma loop_tick (v : View) (timestamp : Q) (d : Draws) (st : Game) :
  loop v timestamp d st =
  let st := detectCollisions v (tick timestamp d st) in
  if v_running v
  then let (h, st) := requestAnimationFrame st in set_animationRef (Some h) st
  else st.
Proof. reflexivity. Qed.

Lemma sameControl_refl (a : Game) : sameControl a a.
Proof. unfold sameControl. tauto. Qed.

Lemma sameControl_trans (a b c : Game) :
  sameControl a b -> sameControl b c -> sameControl a c.
Proof.
  unfold sameControl.
  intros (A1 & A2 & A3 & A4 & A5 & A6 & A7) (B1 & B2 & B3 & B4 & B5 & B6 & B7).
  repeat split; congruence.
Qed.

Lemma spawnObstacle_control (d : Draws) (st : Game) :
  sameControl (spawnObstacle d st) st /\
  playerRef (spawnObstacle d st) = playerRef st.
Proof.
  unfold spawnObstacle, sameControl.
  destruct (10 <? _)%nat; cbn; tauto.
Qed.

Lemma updatePlayer_control (dt : Q) (st : Game) :
  sameControl (updatePlayer dt st) st.
Proof. unfold updatePlayer, sameControl. cbn. tauto. Qed.

Lemma updateObstacles_control (dt : Q) (st : Game) :
  sameControl (updateObstacles dt st) st /\
  playerRef (updateObstacles dt st) = playerRef st.
Proof. rewrite updateObstacles_spec. unfold sameControl. cbn. tauto. Qed.

Lemma tick_control (timestamp : Q) (d : Draws) (st : Game) :
  sameControl (tick timestamp d st) st.
Proof.
  unfold tick.
  eapply sameControl_trans; [apply updateObstacles_control |].
  eapply sameControl_trans; [apply updatePlayer_control |].
  destruct (_ || _).
  - eapply sameControl_trans with (b := spawnObstacle d _).
    + unfold sameControl. cbn. tauto.
    + eapply sameControl_trans; [apply spawnObstacle_control |].
      unfold sameControl. cbn. tauto.
  - unfold sameControl. cbn. tauto.
Qed.

(** The player that a frame leaves is the one [updatePlayer] computes from
    the player and keys the frame found. *)
Lemma tick_player (timestamp : Q) (d : Draws) (st : Game) :
  exists dt, playerRef (tick timestamp d st) = playerRef (updatePlayer dt st).
Proof.
  unfold tick. cbv zeta.
  set (dt := timestamp - _).
  set (s1 := if _ || _ then _ else _).
  exists dt.
  destruct (updateObstacles_control dt (updatePlayer dt s1)) as [_ E].
  rewrite E.
  destruct (spawnObstacle_control d (set_lastTimeRef (Some timestamp) st))
    as [(_ & _ & _ & _ & _ & _ & Ek) Ep].
  apply updatePlayer_ext; subst s1; destruct (_ || _);
    cbn [playerRef keysRef set_lastSpawnRef];
    rewrite ?Ep, ?Ek; reflexivity.
Qed.

(** *** stopGame and detectCollisions *)

Lemma stopGame_fields (v : View) (b : bool) (st : Game) :
  running (stopGame v b st) = false /\
  gameOver (stopGame v b st) = b /\
  best (stopGame v b st) =
    (if (v_score v >? v_best v)%Z then v_score v else best st) /\
  score (stopGame v b st) = score st /\
  playerRef (stopGame v b st) = playerRef st /\
  obstaclesRef (stopGame v b st) = obstaclesRef st /\
  animationRef (stopGame v b st) = animationRef st /\
  nextHandle (stopGame v b st) = nextHandle st /\
  frames (stopGame v b st) =
    match animationRef st with
    | Some h => filter (fun k => negb (Pos.eqb k h)) (frames st)
    | None => frames st
    end.
Proof.
  unfold stopGame. destruct st as [r s b0 g p o k ls [h |] lt fr nh];
    destruct (v_score v >? v_best v)%Z; cbn; repeat split; reflexivity.
Qed.

Lemma forCollisions_spec (v : View) (p : Player) (obs : list Obstacle)
  (st : Game) :
  forCollisions v p obs st =
  if existsb (fun ob => rectIntersect p (topRect ob)
                        || rectIntersect p (bottomRect ob)) obs
  then stopGame v true st else st.
Proof.
  induction obs as [| ob rest IH]; [reflexivity |].
  cbn [forCollisions existsb].
  destruct (rectIntersect p (topRect ob) || rectIntersect p (bottomRect ob));
    [reflexivity | exact IH].
Qed.

Lemma detectCollisions_spec (v : View) (st : Game) :
  detectCollisions v st = if collides st then stopGame v true st else st.
Proof. apply forCollisions_spec. Qed.

Lemma loop_player (v : View) (timestamp : Q) (d : Draws) (st : Game) :
  exists dt,
    playerRef (loop v timestamp d st) = playerRef (updatePlayer dt st).
Proof.
  destruct (tick_player timestamp d st) as [dt E]. exists dt.
  rewrite loop_tick, detectCollisions_spec. cbv zeta.
  pose proof (stopGame_fields v true (tick timestamp d st))
    as (_ & _ & _ & _ & Ep & _).
  destruct (collides (tick timestamp d st)), (v_running v);
    unfold requestAnimationFrame; cbn [playerRef set_animationRef
      set_nextHandle set_frames]; congruence.
Qed.

(** ** Runs: the player keeps its size and every frame leaves it in bounds *)

Lemma startGame_player (st : Game) : playerRef (startGame st) = initialPlayer.
Proof.
  unfold startGame, resetGame. cbn.
  destruct (animationRef st); reflexivity.
Qed.

Lemma sized_initial : sized initialPlayer.
Proof. split; reflexivity. Qed.

Lemma sized_loop (v : View) (timestamp : Q) (d : Draws) (st : Game) :
  sized (playerRef st) -> sized (playerRef (loop v timestamp d st)).
Proof.
  intros [Hw Hh]. destruct (loop_player v timestamp d st) as [dt E].
  destruct (updatePlayer_size dt st) as [Ew Eh].
  unfold sized. rewrite E, Ew, Eh. tauto.
Qed.

Lemma sized_handle (e : Event) (st : Game) :
  sized (playerRef st) -> sized (playerRef (handle e st)).
Proof.
  intro H. destruct e as [h v timestamp d | v code | code | |];
    cbn [handle].
  - destruct (pending h st); [| exact H]. apply sized_loop. exact H.
  - unfold onKeyDown.
    destruct (v_running v && _); destruct (negb (v_running v) && _ && _);
      cbn -[startGame]; rewrite ?startGame_player;
      try apply sized_initial; exact H.
  - exact H.
  - unfold onStartClick. rewrite startGame_player. apply sized_initial.
  - unfold onRestartClick. rewrite startGame_player. apply sized_initial.
Qed.

Lemma sized_run (evs : list Event) (st : Game) :
  sized (playerRef st) -> sized (playerRef (run evs st)).
Proof.
  revert st. induction evs as [| e rest IH]; intros st H; [exact H |].
  cbn [run fold_left]. apply IH. apply sized_handle. exact H.
Qed.

Lemma loop_inBounds (v : View) (timestamp : Q) (d : Draws) (st : Game) :
  sized (playerRef st) -> inBounds (playerRef (loop v timestamp d st)).
Proof.
  intro H. destruct (loop_player v timestamp d st) as [dt E].
  rewrite E. apply updatePlayer_inBounds. exact H.
Qed.

(** C3. Start from the component as mounted and let any events happen: key
    presses, clicks, frames with any timestamps and any draws.  Then any
    call of [loop] on the state reached, and any frame event that runs,
    leaves the player with [0 <= x <= GAME_WIDTH - width] and
    [0 <= y <= GAME_HEIGHT - height]. *)
Theorem player_in_bounds_after_frame
  (best0 : Z) (evs : list Event)
  (h : positive) (v : View) (timestamp : Q) (d : Draws) :
  let st := run evs (initialGame best0) in
  inBounds (playerRef (loop v timestamp d st))
  /\ (pending h st = true ->
      inBounds (playerRef (handle (Frame h v timestamp d) st))).
Proof.
  intro st.
  assert (S : sized (playerRef st)).
  { apply sized_run. apply sized_initial. }
  split.
  - apply loop_inBounds. exact S.
  - intro P. cbn [handle]. rewrite P. apply loop_inBounds. exact S.
Qed.

(** A frame that does run, after a click on Start and a jump. *)
Lemma player_in_bounds_after_frame_witness :
  let evs := [StartClick; KeyDown (mkView true 0 0 false) "Space"] in
  let v := mkView true 0 0 false in
  let st := run evs (initialGame 0) in
  pending 1 st = true /\
  inBounds (playerRef (handle (Frame 1 v 1000 sampleDraws) st)).
Proof.
  intros evs v st. split; [reflexivity |].
  apply (player_in_bounds_after_frame 0 evs 1 v 1000 sampleDraws).
  reflexivity.
Defined.

(** ** Collision policy *)

(** A barrier that meets the player ends the game. *)
Lemma detectCollisions_hit (v : View) (st : Game) (ob : Obstacle) :
  In ob (obstaclesRef st) ->
  rectIntersect (playerRef st) (topRect ob) = true \/
  rectIntersect (playerRef st) (bottomRect ob) = true ->
  running (detectCollisions v st) = false /\
  gameOver (detectCollisions v st) = true.
Proof.
  intros Hin Hr. rewrite detectCollisions_spec.
  assert (C : collides st = true).
  { unfold collides. apply existsb_exists. exists ob. split; [exact Hin |].
    apply orb_true_iff. exact Hr. }
  rewrite C.
  pose proof (stopGame_fields v true st) as (Sr & Sg & _). tauto.
Qed.

(** C5. [rectIntersect p r] holds exactly when the closed regions of the two
    rectangles (of non-negative extent) share a point; a rectangle whose
    left edge is flush against the player's right edge, with the vertical
    spans overlapping, is reported as intersecting; and when such a
    rectangle is the top or bottom barrier of a live obstacle,
    [detectCollisions] ends the game. *)
Theorem rectIntersect_closed_overlap (p : Player) (r : Rect) :
  0 <= p_width p -> 0 <= p_height p -> 0 <= r_w r -> 0 <= r_h r ->
  (rectIntersect p r = true <-> exists u v, inPlayer p u v /\ inRect r u v)
  /\ (p_x p + p_width p == r_x r ->
      r_y r <= p_y p + p_height p -> p_y p <= r_y r + r_h r ->
      rectIntersect p r = true /\
      forall v st ob,
        playerRef st = p -> In ob (obstaclesRef st) ->
        r = topRect ob \/ r = bottomRect ob ->
        running (detectCollisions v st) = false /\
        gameOver (detectCollisions v st) = true).
Proof.
  intros Hpw Hph Hrw Hrh. split.
  - rewrite rectIntersect_true. split.
    + intros (H1 & H2 & H3 & H4).
      exists (Qmax (p_x p) (r_x r)), (Qmax (p_y p) (r_y r)).
      unfold inPlayer, inRect.
      destruct (Q.max_spec (p_x p) (r_x r)) as [[Hx Ex] | [Hx Ex]];
      destruct (Q.max_spec (p_y p) (r_y r)) as [[Hy Ey] | [Hy Ey]];
      rewrite Ex, Ey; repeat split; lra.
    + intros (u & v & (A1 & A2 & A3 & A4) & (B1 & B2 & B3 & B4)).
      repeat split; lra.
  - intros E Hy1 Hy2.
    assert (T : rectIntersect p r = true).
    { apply rectIntersect_true. repeat split; lra. }
    split; [exact T |].
    intros v st ob Ep Hin Hr. apply (detectCollisions_hit v st ob Hin).
    rewrite Ep. destruct Hr as [<- | <-]; [left | right]; exact T.
Qed.

Lemma rectIntersect_closed_overlap_witness :
  let p := flushPlayer in
  let r := topRect flushObstacle in
  (rectIntersect p r = true <-> exists u v, inPlayer p u v /\ inRect r u v)
  /\ (p_x p + p_width p == r_x r ->
      r_y r <= p_y p + p_height p -> p_y p <= r_y r + r_h r ->
      rectIntersect p r = true /\
      forall v st ob,
        playerRef st = p -> In ob (obstaclesRef st) ->
        r = topRect ob \/ r = bottomRect ob ->
        running (detectCollisions v st) = false /\
        gameOver (detectCollisions v st) = true).
Proof.
  intros p r.
  apply (rectIntersect_closed_overlap p r);
    unfold p, r, flushPlayer, flushObstacle, topRect, PLAYER_SIZE,
           OBSTACLE_WIDTH; simpl; lra.
Defined.

(** ** Pending handles *)

Lemma pending_filter (h k : positive) (fr : list positive) :
  existsb (Pos.eqb h) (filter (fun j => negb (Pos.eqb j k)) fr) = true ->
  existsb (Pos.eqb h) fr = true.
Proof.
  rewrite !existsb_exists. intros (x & Hin & Hx).
  apply filter_In in Hin. exists x. tauto.
Qed.

Lemma pending_cancelled (h : positive) (fr : list positive) :
  existsb (Pos.eqb h) (filter (fun j => negb (Pos.eqb j h)) fr) = false.
Proof.
  apply not_true_iff_false. rewrite existsb_exists. intros (x & Hin & Hx).
  apply filter_In in Hin. destruct Hin as [_ Hn].
  apply Pos.eqb_eq in Hx. subst x. rewrite Pos.eqb_refl in Hn. discriminate.
Qed.

(** ** Best score *)

Lemma loop_best (v : View) (timestamp : Q) (d : Draws) (st : Game) :
  best (loop v timestamp d st) =
  if collides (tick timestamp d st)
  then (if (v_score v >? v_best v)%Z then v_score v else best st)
  else best st.
Proof.
  rewrite loop_tick, detectCollisions_spec. cbv zeta.
  destruct (tick_control timestamp d st) as (_ & _ & Eb & _).
  pose proof (stopGame_fields v true (tick timestamp d st))
    as (_ & _ & Sb & _).
  destruct (collides (tick timestamp d st)), (v_running v);
    unfold requestAnimationFrame;
    cbn [best set_animationRef set_nextHandle set_frames];
    rewrite ?Sb, ?Eb; reflexivity.
Qed.

Lemma startGame_best (st : Game) : best (startGame st) = best st.
Proof.
  unfold startGame, resetGame. cbn. destruct (animationRef st); reflexivity.
Qed.

Lemma loop_collision (v : View) (timestamp : Q) (d : Draws) (st : Game) :
  collides (tick timestamp d st) = true ->
  running (loop v timestamp d st) = false /\
  gameOver (loop v timestamp d st) = true /\
  score (loop v timestamp d st) = score (tick timestamp d st).
Proof.
  intro C. rewrite loop_tick, detectCollisions_spec, C. cbv zeta.
  pose proof (stopGame_fields v true (tick timestamp d st))
    as (Sr & Sg & _ & Ss & _).
  destruct (v_running v); unfold requestAnimationFrame;
    cbn [running gameOver score set_animationRef set_nextHandle set_frames];
    tauto.
Qed.

(** ** Restart *)

Lemma startGame_engine (st : Game) :
  engine (startGame st) =
  mkEngine true false 0 (best st) initialPlayer [] 0 None.
Proof.
  unfold startGame, resetGame, engine. cbn.
  destruct (animationRef st); reflexivity.
Qed.

Lemma startGame_frames (st : Game) :
  animationRef (startGame st) = Some (nextHandle st) /\
  nextHandle (startGame st) = Pos.succ (nextHandle st) /\
  frames (startGame st) =
    match animationRef st with
    | Some h => filter (fun k => negb (Pos.eqb k h)) (frames st)
    | None => frames st
    end ++ [nextHandle st].
Proof.
  unfold startGame, resetGame. cbn.
  destruct (animationRef st); cbn; repeat split; reflexivity.
Qed.

Lemma pending_last (h : positive) (fr : list positive) :
  existsb (Pos.eqb h) (fr ++ [h]) = true.
Proof.
  rewrite existsb_app. cbn [existsb]. rewrite Pos.eqb_refl.
  apply orb_true_r.
Qed.

(** C9. Restarting twice in a row leaves the same engine state as restarting
    once: running, score 0, no obstacles, spawn clock 0, the player at its
    initial pose ([x = GAME_WIDTH / 4], [y = GAME_HEIGHT / 2], [vy = 0]),
    best untouched.  Each restart holds one pending frame handle, and the
    second restart cancels the handle of the first. *)
Theorem restart_idempotent (st : Game) :
  let once := onRestartClick st in
  let twice := onRestartClick (onRestartClick st) in
  engine twice = engine once
  /\ running once = true /\ gameOver once = false
  /\ score once = 0%Z /\ obstaclesRef once = [] /\ lastSpawnRef once = 0
  /\ lastTimeRef once = None
  /\ playerRef once = initialPlayer
  /\ p_x initialPlayer == 175 /\ p_y initialPlayer == 250
  /\ p_vy initialPlayer == 0
  /\ best once = best st
  /\ (exists h, animationRef once = Some h /\ pending h once = true)
  /\ (exists h, animationRef twice = Some h /\ pending h twice = true
                /\ forall k, animationRef once = Some k ->
                             pending k twice = false).
Proof.
  intros once twice. unfold twice, once, onRestartClick.
  pose proof (startGame_engine st) as E.
  pose proof (startGame_frames st) as (Fa & Fn & Ff).
  pose proof (startGame_frames (startGame st)) as (Ga & Gn & Gf).
  split; [rewrite !startGame_engine, startGame_best; reflexivity |].
  split; [exact (f_equal e_running E) |].
  split; [exact (f_equal e_gameOver E) |].
  split; [exact (f_equal e_score E) |].
  split; [exact (f_equal e_obstacles E) |].
  split; [exact (f_equal e_lastSpawn E) |].
  split; [exact (f_equal e_lastTime E) |].
  split; [exact (f_equal e_player E) |].
  split; [reflexivity |]. split; [reflexivity |]. split; [reflexivity |].
  split; [exact (f_equal e_best E) |].
  split.
  - exists (nextHandle st). split; [exact Fa |].
    unfold pending. rewrite Ff. apply pending_last.
  - exists (nextHandle (startGame st)). split; [exact Ga |].
    split.
    + unfold pending. rewrite Gf. apply pending_last.
    + intros k Ek. rewrite Fa in Ek. injection Ek as <-.
      unfold pending. rewrite Gf, Fa, Fn, existsb_app, pending_cancelled.
      cbn. rewrite orb_false_r. apply Pos.eqb_neq. lia.
Qed.

(** ** Worked runs *)

(** [randomBetween] at the draw 0.5 over [120 .. 180] is 150, and at a draw
    just below 1 it is 180. *)
Example randomBetween_samples :
  randomBetween 0.5 GAP_MIN GAP_MAX == 150 /\
  randomBetween 0 GAP_MIN GAP_MAX == 120 /\
  randomBetween 0.999 GAP_MIN GAP_MAX == 180.
Proof. repeat split; reflexivity. Qed.

(** The obstacle made from [sampleDraws]. *)
Example newObstacle_sample :
  let ob := newObstacle sampleDraws in
  ob_x ob == 720 /\ ob_gapHeight ob == 150 /\ ob_gapTop ob == 107 /\
  ob_speed ob == 3.5 /\ ob_passed ob = false.
Proof. repeat split; reflexivity. Qed.

(** One frame of a game in progress: the first obstacle's right edge moves
    from 176 to 172.8, left of the player at 175; the score goes from 0 to 1
    and the obstacle is marked.  A second frame scores nothing more, and a
    stall of ten seconds scores the second obstacle once. *)
Example updateObstacles_sample :
  let st1 := updateObstacles FRAME_MS inProgress in
  let st2 := updateObstacles FRAME_MS st1 in
  let st3 := updateObstacles 10000 st2 in
  score st1 = 1%Z /\ map ob_passed (obstaclesRef st1) = [true; false] /\
  score st2 = 1%Z /\ map ob_passed (obstaclesRef st2) = [true; false] /\
  score st3 = 2%Z /\ obstaclesRef st3 = [].
Proof. repeat split; reflexivity. Qed.

(** A frame that finds the player inside a barrier ends the game and commits
    the score. *)
Example loop_collision_sample :
  let st := loop (view_of aboutToHit) (1000 + FRAME_MS) sampleDraws aboutToHit in
  running st = false /\ gameOver st = true /\ score st = 3%Z /\ best st = 3%Z.
Proof. repeat split; reflexivity. Qed.

(** * Further properties *)

(** ** Invariants of runs *)

Section RunInvariant.

Variable ok : Event -> Prop.
Variable inv : Game -> Prop.
Hypothesis inv_handle : forall e st, ok e -> inv st -> inv (handle e st).

Lemma run_invariant (evs : list Event) (st : Game) :
  Forall ok evs -> inv st -> inv (run evs st).
Proof.
  revert st. induction evs as [| e rest IH]; intros st Hok Hst.
  - exact Hst.
  - inversion Hok as [| e' rest' He Hrest]; subst.
    cbn [run fold_left]. apply IH; [exact Hrest |].
    apply inv_handle; assumption.
Qed.

End RunInvariant.

Lemma Forall_any (evs : list Event) : Forall (fun _ => True) evs.
Proof. induction evs; constructor; auto. Qed.

(** What [loop] leaves of the state that [tick] produced. *)
Lemma loop_data (v : View) (timestamp : Q) (d : Draws) (st : Game) :
  let st' := loop v timestamp d st in
  let t := tick timestamp d st in
  obstaclesRef st' = obstaclesRef t /\ score st' = score t /\
  playerRef st' = playerRef t /\ keysRef st' = keysRef t /\
  lastSpawnRef st' = lastSpawnRef t /\ lastTimeRef st' = lastTimeRef t.
Proof.
  intros st' t. unfold st'. rewrite loop_tick, detectCollisions_spec.
  cbv zeta. fold t. unfold stopGame.
  destruct t as [r s b g p o k ls [a |] lt fr nh];
    destruct (collides _), (v_running v), (v_score v >? v_best v)%Z;
    cbn; repeat split; reflexivity.
Qed.

(** The cells and the frame table after [loop], from those before. *)
Lemma loop_control (v : View) (timestamp : Q) (d : Draws) (st : Game) :
  let st' := loop v timestamp d st in
  let c := collides (tick timestamp d st) in
  let fr := if c
            then match animationRef st with
                 | Some h => filter (fun k => negb (Pos.eqb k h)) (frames st)
                 | None => frames st
                 end
            else frames st in
  running st' = (if c then false else running st) /\
  gameOver st' = (if c then true else gameOver st) /\
  frames st' = (if v_running v then fr ++ [nextHandle st] else fr) /\
  animationRef st' =
    (if v_running v then Some (nextHandle st) else animationRef st) /\
  nextHandle st' =
    (if v_running v then Pos.succ (nextHandle st) else nextHandle st).
Proof.
  intros st' c fr. unfold st', fr, c.
  rewrite loop_tick, detectCollisions_spec. cbv zeta.
  destruct (tick_control timestamp d st) as (Er & Eg & _ & Ea & Ef & En & _).
  rewrite <- Er, <- Eg, <- Ea, <- Ef, <- En.
  unfold stopGame.
  destruct (tick timestamp d st) as [r s b g p o k ls [a |] lt fr0 nh];
    destruct (collides _), (v_running v), (v_score v >? v_best v)%Z;
    cbn; repeat split; reflexivity.
Qed.

Lemma startGame_control (st : Game) :
  running (startGame st) = true /\ gameOver (startGame st) = false.
Proof.
  pose proof (startGame_engine st) as E.
  split; [exact (f_equal e_running E) | exact (f_equal e_gameOver E)].
Qed.

(** *** One loop at a time *)

Lemma onePending_startGame (st : Game) :
  onePending st -> onePending (startGame st).
Proof.
  intro H. destruct (startGame_frames st) as (Fa & _ & Ff).
  right. exists (nextHandle st). split; [| exact Fa].
  rewrite Ff. destruct H as [E | (h & E & Ea)].
  - rewrite E. destruct (animationRef st); reflexivity.
  - rewrite E, Ea. cbn. rewrite Pos.eqb_refl. reflexivity.
Qed.

Lemma onePending_handle (e : Event) (st : Game) :
  onePending st -> onePending (handle e st).
Proof.
  intro H. destruct e as [h v timestamp d | v code | code | |]; cbn [handle].
  - destruct (pending h st) eqn:P; [| exact H].
    assert (F0 : frames (cancelAnimationFrame h st) = []).
    { unfold pending in P. destruct H as [E | (k & E & _)].
      - rewrite E in P. discriminate.
      - cbn. rewrite E in *. cbn in P. rewrite orb_false_r in P.
        apply Pos.eqb_eq in P. subst k. cbn. rewrite Pos.eqb_refl.
        reflexivity. }
    pose proof (loop_control v timestamp d (cancelAnimationFrame h st))
      as (_ & _ & Lf & La & _).
    cbv zeta in Lf. rewrite F0 in Lf.
    assert (Fr : (if collides (tick timestamp d (cancelAnimationFrame h st))
                  then match animationRef (cancelAnimationFrame h st) with
                       | Some h0 =>
                           filter (fun k => negb (Pos.eqb k h0)) []
                       | None => []
                       end
                  else []) = (@nil positive)).
    { destruct (collides _); [| reflexivity].
      destruct (animationRef _); reflexivity. }
    rewrite Fr in Lf. destruct (v_running v).
    + right. exists (nextHandle (cancelAnimationFrame h st)).
      split; assumption.
    + left. exact Lf.
  - unfold onKeyDown.
    destruct (v_running v && _); destruct (negb (v_running v) && _ && _);
      try (apply onePending_startGame); exact H.
  - exact H.
  - apply onePending_startGame. exact H.
  - apply onePending_startGame. exact H.
Qed.

(** X1. Whatever events happen after mounting, at most one animation frame
    of the loop is pending, and it is the one whose handle [animationRef]
    holds: [startGame] cancels the held handle before it requests a new
    one, and a frame that runs requests at most one. *)
Theorem one_frame_pending (best0 : Z) (evs : list Event) :
  let st := run evs (initialGame best0) in
  (List.length (frames st) <= 1)%nat /\
  (forall h, pending h st = true -> animationRef st = Some h).
Proof.
  intro st.
  assert (H : onePending st).
  { apply (run_invariant (fun _ => True) onePending).
    - intros e s _. apply onePending_handle.
    - apply Forall_any.
    - left. reflexivity. }
  destruct H as [E | (k & E & Ea)]; unfold pending; rewrite E; cbn.
  - split; [lia | discriminate].
  - split; [lia |]. intros h P. rewrite orb_false_r in P.
    apply Pos.eqb_eq in P. subst. exact Ea.
Qed.

(** *** The session's modes *)

Lemma modeOk_startGame (st : Game) :
  mode (startGame st) = Running /\ modeOk (startGame st).
Proof.
  destruct (startGame_control st) as [Er Eg].
  assert (M : mode (startGame st) = Running).
  { unfold mode. rewrite Er, Eg. reflexivity. }
  split; [exact M |]. unfold modeOk. rewrite M. split; discriminate.
Qed.

Lemma mode_handle (e : Event) (st : Game) :
  modeOk st ->
  modeOk (handle e st) /\ modeStep e (mode st) (mode (handle e st)).
Proof.
  intros [Hb Hi].
  destruct e as [h v timestamp d | v code | code | |]; cbn [handle].
  - destruct (pending h st) eqn:P;
      [| split; [split; assumption | left; reflexivity]].
    pose proof (loop_control v timestamp d (cancelAnimationFrame h st))
      as (Lr & Lg & _).
    cbv zeta in Lr, Lg.
    cbn [running gameOver cancelAnimationFrame set_frames] in Lr, Lg.
    assert (NI : mode st <> Idle).
    { intro I. apply Hi in I. unfold pending in P. rewrite I in P.
      discriminate. }
    unfold modeOk, modeStep, mode in *. rewrite Lr, Lg.
    destruct (collides _), (running st), (gameOver st); cbn [isFrame];
      try congruence; (split; [split; congruence |]); auto.
  - unfold onKeyDown.
    destruct (negb (v_running v) && v_gameOver v && String.eqb code "Enter")
      eqn:S.
    + destruct (v_running v && _);
        (split; [apply modeOk_startGame |]);
        right; left; (split; [apply modeOk_startGame | exact S]).
    + destruct (v_running v && _);
        (split; [split; assumption | left; reflexivity]).
  - split; [split; assumption | left; reflexivity].
  - unfold onStartClick. split; [apply modeOk_startGame |].
    right; left. split; [apply modeOk_startGame | exact I].
  - unfold onRestartClick. split; [apply modeOk_startGame |].
    right; left. split; [apply modeOk_startGame | exact I].
Qed.

(** X2. In every state reached from mounting, [running] and [gameOver] are
    never both true, and while both are false (Idle) no frame is pending.
    An event either leaves the mode alone, or starts a game (a click, or
    Enter seen by a handler that shows game over and not running), or is
    the frame that takes a running game to game over; once left, Idle is
    never entered again. *)
Theorem session_modes (best0 : Z) (evs : list Event) (e : Event) :
  let st := run evs (initialGame best0) in
  mode st <> RunningAndOver
  /\ (mode st = Idle -> frames st = [])
  /\ modeStep e (mode st) (mode (handle e st))
  /\ (mode st <> Idle -> mode (handle e st) <> Idle).
Proof.
  intro st.
  assert (H : modeOk st).
  { apply (run_invariant (fun _ => True) modeOk).
    - intros e0 s _ Hs. apply mode_handle. exact Hs.
    - apply Forall_any.
    - split; [discriminate | reflexivity]. }
  destruct (mode_handle e st H) as [_ S]. destruct H as [Hb Hi].
  split; [exact Hb |]. split; [exact Hi |]. split; [exact S |].
  intros NI. destruct S as [E | [[E _] | (_ & E & _)]]; rewrite E;
    [exact NI | discriminate | discriminate].
Qed.

(** ** The obstacle list *)

Lemma spawnObstacle_obstacles (d : Draws) (st : Game) :
  obstaclesRef (spawnObstacle d st) =
  if (10 <? List.length (obstaclesRef st ++ [newObstacle d]))%nat
  then tl (obstaclesRef st ++ [newObstacle d])
  else obstaclesRef st ++ [newObstacle d].
Proof.
  unfold spawnObstacle. cbn [obstaclesRef set_obstaclesRef].
  destruct (10 <? _)%nat; reflexivity.
Qed.

(** The list that [tick] leaves is the old list, or the old list after
    [spawnObstacle], moved and filtered. *)
Lemma tick_obstacles (timestamp : Q) (d : Draws) (st : Game) :
  exists dt px src,
    obstaclesRef (tick timestamp d st) =
      filter onScreen (map (stepObstacle dt px) src) /\
    (src = obstaclesRef st \/ src = obstaclesRef (spawnObstacle d st)).
Proof.
  unfold tick. cbv zeta.
  set (dt := timestamp - _).
  set (s1 := if _ || _ then _ else _).
  exists dt, (p_x (playerRef (updatePlayer dt s1))), (obstaclesRef s1).
  split.
  - rewrite updateObstacles_spec. reflexivity.
  - subst s1. destruct (_ || _); [right | left]; [| reflexivity].
    cbn [obstaclesRef set_lastSpawnRef].
    rewrite !spawnObstacle_obstacles. reflexivity.
Qed.

Lemma startGame_obstacles (st : Game) : obstaclesRef (startGame st) = [].
Proof. exact (f_equal e_obstacles (startGame_engine st)). Qed.

(** What an event can do to the list: nothing, empty it, or, for a frame,
    move and filter it, after one spawn at most. *)
Lemma handle_obstacles (e : Event) (st : Game) :
  obstaclesRef (handle e st) = obstaclesRef st
  \/ obstaclesRef (handle e st) = []
  \/ exists h v timestamp d dt px src,
       e = Frame h v timestamp d /\
       obstaclesRef (handle e st) =
         filter onScreen (map (stepObstacle dt px) src) /\
       (src = obstaclesRef st \/ src = obstaclesRef (spawnObstacle d st)).
Proof.
  destruct e as [h v timestamp d | v code | code | |]; cbn [handle].
  - destruct (pending h st); [| left; reflexivity].
    right; right.
    pose proof (loop_data v timestamp d (cancelAnimationFrame h st))
      as (Lo & _).
    destruct (tick_obstacles timestamp d (cancelAnimationFrame h st))
      as (dt & px & src & E & Hs).
    exists h, v, timestamp, d, dt, px, src.
    split; [reflexivity |]. split; [congruence |].
    rewrite spawnObstacle_obstacles in Hs.
    rewrite spawnObstacle_obstacles. exact Hs.
  - unfold onKeyDown.
    destruct (v_running v && _); destruct (negb (v_running v) && _ && _);
      rewrite ?startGame_obstacles; auto.
  - left. reflexivity.
  - right; left. apply startGame_obstacles.
  - right; left. apply startGame_obstacles.
Qed.

Lemma length_moved (dt px : Q) (src : list Obstacle) :
  (List.length (filter onScreen (map (stepObstacle dt px) src))
   <= List.length src)%nat.
Proof.
  eapply Nat.le_trans; [apply filter_length_le |].
  rewrite length_map. lia.
Qed.

Lemma spawnObstacle_length (d : Draws) (st : Game) :
  (List.length (obstaclesRef st) <= 10)%nat ->
  (List.length (obstaclesRef (spawnObstacle d st)) <= 10)%nat.
Proof.
  intro H. rewrite spawnObstacle_obstacles.
  destruct (10 <? _)%nat eqn:E.
  - destruct (obstaclesRef st) as [| o l]; cbn in *; [lia |].
    rewrite length_app in *. cbn in *. lia.
  - apply Nat.ltb_ge in E. exact E.
Qed.

Lemma capped_run (best0 : Z) (evs : list Event) :
  (List.length (obstaclesRef (run evs (initialGame best0))) <= 10)%nat.
Proof.
  apply (run_invariant (fun _ => True)
           (fun s => (List.length (obstaclesRef s) <= 10)%nat)).
  - intros e s _ Hs.
    destruct (handle_obstacles e s)
      as [E | [E | (h & v & t & d0 & dt & px & src & _ & E & Hsrc)]];
      rewrite E; [exact Hs | cbn; lia |].
    eapply Nat.le_trans; [apply length_moved |].
    destruct Hsrc as [-> | ->]; [exact Hs |].
    apply spawnObstacle_length. exact Hs.
  - apply Forall_any.
  - cbn. lia.
Qed.

(** X3. In every state reached from mounting the obstacle list holds at
    most ten obstacles.  [spawnObstacle] appends the new obstacle at the
    end; on a list of ten it drops the oldest one first. *)
Theorem obstacles_capped (best0 : Z) (evs : list Event) (d : Draws) :
  let st := run evs (initialGame best0) in
  (List.length (obstaclesRef st) <= 10)%nat
  /\ (List.length (obstaclesRef (spawnObstacle d st)) <= 10)%nat
  /\ ((List.length (obstaclesRef st) < 10)%nat ->
      obstaclesRef (spawnObstacle d st) = obstaclesRef st ++ [newObstacle d])
  /\ (List.length (obstaclesRef st) = 10%nat ->
      obstaclesRef (spawnObstacle d st) =
      tl (obstaclesRef st) ++ [newObstacle d]).
Proof.
  intro st.
  assert (H : (List.length (obstaclesRef st) <= 10)%nat)
    by apply capped_run.
  split; [exact H |]. split; [apply spawnObstacle_length; exact H |].
  rewrite spawnObstacle_obstacles, length_app. cbn [List.length].
  split; intro L.
  - destruct (10 <? _)%nat eqn:E; [| reflexivity].
    apply Nat.ltb_lt in E. lia.
  - destruct (10 <? _)%nat eqn:E.
    + destruct (obstaclesRef st); [discriminate | reflexivity].
    + apply Nat.ltb_ge in E. lia.
Qed.

(** *** Every obstacle in the list is well formed *)

Lemma liveObstacle_new (d : Draws) : draws_ok d -> liveObstacle (newObstacle d).
Proof.
  intros (H1 & H2 & (S0 & S1) & _).
  destruct (newObstacle_gap d H1 H2) as (i & j & Hi & Hj & Ei & Ej).
  destruct (inject_Z_between i 0 60 Hi) as [I0 I1].
  destruct (inject_Z_between j 0 (300 - i) Hj) as [J0 J1].
  unfold Z.sub in J1. rewrite inject_Z_plus, inject_Z_opp in J1.
  change (inject_Z 0) with 0 in *. change (inject_Z 60) with 60 in *.
  change (inject_Z 300) with 300 in *.
  unfold liveObstacle. rewrite Ei, Ej.
  cbn [ob_width ob_speed ob_x newObstacle].
  unfold GAP_MIN, GAP_MAX, GAME_HEIGHT, GAME_WIDTH, OBSTACLE_SPEED,
    OBSTACLE_WIDTH.
  repeat split; try reflexivity; lra.
Qed.

Lemma liveObstacle_moved (dt px : Q) (ob : Obstacle) :
  liveObstacle ob -> onScreen (stepObstacle dt px ob) = true ->
  liveObstacle (stepObstacle dt px ob).
Proof.
  unfold liveObstacle, onScreen. intros (W & S0 & S1 & G0 & G1 & T0 & T1 & _) V.
  apply Qgtb_gt in V. revert V. unfold stepObstacle.
  destruct (justPassed px (advance dt ob)); cbn; intro V;
    repeat split; assumption.
Qed.

Lemma liveObstacles_moved (dt px : Q) (src : list Obstacle) :
  Forall liveObstacle src ->
  Forall liveObstacle (filter onScreen (map (stepObstacle dt px) src)).
Proof.
  intro H. apply Forall_forall. intros ob Hin.
  apply filter_In in Hin. destruct Hin as [Hin V].
  apply in_map_iff in Hin. destruct Hin as (ob0 & <- & Hin0).
  apply liveObstacle_moved; [| exact V].
  rewrite Forall_forall in H. apply H. exact Hin0.
Qed.

Lemma liveObstacles_spawn (d : Draws) (st : Game) :
  draws_ok d -> Forall liveObstacle (obstaclesRef st) ->
  Forall liveObstacle (obstaclesRef (spawnObstacle d st)).
Proof.
  intros Hd H. rewrite spawnObstacle_obstacles.
  assert (A : Forall liveObstacle (obstaclesRef st ++ [newObstacle d])).
  { apply Forall_app. split; [exact H |].
    constructor; [apply liveObstacle_new; exact Hd | constructor]. }
  destruct (10 <? _)%nat; [| exact A].
  destruct (obstaclesRef st ++ [newObstacle d]); [constructor |].
  cbn. inversion A; assumption.
Qed.

(** X4. In every run whose frames draw their random numbers in [0,1),
    every obstacle in the list has width 70, a speed in [3.2, 3.6), a gap
    height in [120, 180], a gap top in [40, 500 - gapHeight - 40], and its
    right edge right of -50. *)
Theorem obstacles_well_formed (best0 : Z) (evs : list Event) :
  Forall drawsOk evs ->
  Forall liveObstacle (obstaclesRef (run evs (initialGame best0))).
Proof.
  intro Hd.
  apply (run_invariant drawsOk (fun s => Forall liveObstacle (obstaclesRef s)));
    [| exact Hd | constructor].
  intros e s He Hs.
  destruct (handle_obstacles e s)
    as [E | [E | (h & v & t & d & dt & px & src & Ee & E & Hsrc)]];
    rewrite E; [exact Hs | constructor |].
  apply liveObstacles_moved. destruct Hsrc as [-> | ->]; [exact Hs |].
  apply liveObstacles_spawn; [| exact Hs].
  subst e. exact He.
Qed.

Lemma obstacles_well_formed_witness :
  Forall drawsOk shortRun /\
  obstaclesRef (run shortRun (initialGame 0)) <> [] /\
  Forall liveObstacle (obstaclesRef (run shortRun (initialGame 0))).
Proof.
  assert (H : Forall drawsOk shortRun).
  { repeat constructor; cbn; lra. }
  split; [exact H |]. split; [vm_compute; discriminate |].
  apply (obstacles_well_formed 0 shortRun H).
Defined.

(** ** Keyboard *)

Lemma setKey_same (code : string) (b : bool) (k : Keys) :
  setKey code b k code = b.
Proof. unfold setKey. rewrite String.eqb_refl. reflexivity. Qed.

Lemma setKey_other (code other : string) (b : bool) (k : Keys) :
  other <> code -> setKey code b k other = k other.
Proof.
  intro N. unfold setKey. apply String.eqb_neq in N. rewrite N. reflexivity.
Qed.

Lemma startGame_keys (st : Game) : keysRef (startGame st) = keysRef st.
Proof.
  unfold startGame, resetGame. cbn. destruct (animationRef st); reflexivity.
Qed.

Lemma onKeyDown_keys (v : View) (code : string) (st : Game) :
  keysRef (onKeyDown v code st) = setKey code true (keysRef st).
Proof.
  unfold onKeyDown.
  destruct (v_running v && _); destruct (negb (v_running v) && _ && _);
    rewrite ?startGame_keys; reflexivity.
Qed.

Lemma loop_keys (v : View) (timestamp : Q) (d : Draws) (st : Game) :
  keysRef (loop v timestamp d st) = keysRef st.
Proof.
  pose proof (loop_data v timestamp d st) as (_ & _ & _ & Ek & _).
  destruct (tick_control timestamp d st) as (_ & _ & _ & _ & _ & _ & Et).
  cbv zeta in Ek. congruence.
Qed.

(** X5. [keysRef] tracks the keys that are down: a key reads true after its
    key-down and false after its key-up, other keys are not touched, and
    neither a restart nor a frame clears a held key. *)
Theorem keys_track_presses (v : View) (code other : string) (st : Game) :
  keysRef (onKeyDown v code st) code = true
  /\ keysRef (onKeyUp code st) code = false
  /\ keysRef (onKeyUp code (onKeyDown v code st)) code = false
  /\ (other <> code ->
      keysRef (onKeyDown v code st) other = keysRef st other /\
      keysRef (onKeyUp code st) other = keysRef st other)
  /\ keysRef (startGame st) = keysRef st
  /\ (forall w timestamp d, keysRef (loop w timestamp d st) = keysRef st).
Proof.
  rewrite onKeyDown_keys. cbn [onKeyUp keysRef set_keysRef].
  rewrite !setKey_same. repeat split; try reflexivity.
  - apply setKey_other. assumption.
  - apply setKey_other. assumption.
  - apply startGame_keys.
  - intros. apply loop_keys.
Qed.

Lemma onKeyDown_jump (v : View) (code : string) (st : Game) :
  v_running v = true ->
  code = "Space"%string \/ code = "ArrowUp"%string ->
  onKeyDown v code st =
  set_playerRef
    (mkPlayer (p_x (playerRef st)) (p_y (playerRef st) - 2) JUMP_VELOCITY
              (p_width (playerRef st)) (p_height (playerRef st)))
    (keyRecorded code st).
Proof.
  unfold onKeyDown, keyRecorded.
  intros R [-> | ->]; rewrite R; reflexivity.
Qed.

(** What a key press does besides recording the key, case by case. *)
Lemma keydown_gating (v : View) (code : string) (st : Game) :
  (v_running v = true ->
   code <> "Space"%string -> code <> "ArrowUp"%string ->
   onKeyDown v code st = keyRecorded code st)
  /\ (v_running v = false ->
      v_gameOver v = false \/ code <> "Enter"%string ->
      onKeyDown v code st = keyRecorded code st)
  /\ (v_running v = true ->
      code = "Space"%string \/ code = "ArrowUp"%string ->
      onKeyDown v code st =
      set_playerRef
        (mkPlayer (p_x (playerRef st)) (p_y (playerRef st) - 2) JUMP_VELOCITY
                  (p_width (playerRef st)) (p_height (playerRef st)))
        (keyRecorded code st))
  /\ (v_running v = false -> v_gameOver v = true ->
      onKeyDown v "Enter" st = startGame (keyRecorded "Enter" st)).
Proof.
  unfold onKeyDown, keyRecorded. repeat split.
  - intros R N1 N2. apply String.eqb_neq in N1, N2.
    rewrite R, N1, N2. reflexivity.
  - intros R [G | N].
    + rewrite R, G. reflexivity.
    + apply String.eqb_neq in N. rewrite R, N, andb_false_r. reflexivity.
  - intros R J. fold (keyRecorded code st). apply onKeyDown_jump; assumption.
  - intros R G. rewrite R, G. reflexivity.
Qed.

(** ** Time steps and kinematics *)

(** The player after a frame is [updatePlayer] at the frame's time step. *)
Lemma loop_player_dt (v : View) (timestamp : Q) (d : Draws) (st : Game) :
  playerRef (loop v timestamp d st) =
  playerRef (updatePlayer (frameDt timestamp st) st).
Proof.
  pose proof (loop_data v timestamp d st) as (_ & _ & Ep & _).
  cbv zeta in Ep. rewrite Ep. unfold tick, frameDt. cbv zeta.
  set (dt := timestamp - _).
  set (s1 := if _ || _ then _ else _).
  destruct (updateObstacles_control dt (updatePlayer dt s1)) as [_ E].
  rewrite E.
  destruct (spawnObstacle_control d (set_lastTimeRef (Some timestamp) st))
    as [(_ & _ & _ & _ & _ & _ & Ek) Es].
  apply updatePlayer_ext; subst s1; destruct (_ || _);
    cbn [playerRef keysRef set_lastSpawnRef];
    rewrite ?Es, ?Ek; reflexivity.
Qed.

Lemma sized_fits (p : Player) : sized p -> p_height p <= GAME_HEIGHT.
Proof.
  intros [_ H]. rewrite H. unfold PLAYER_SIZE, GAME_HEIGHT. lra.
Qed.

Lemma frame_ratio (dt : Q) : dt / FRAME_MS == dt * (10000 # 166667).
Proof. unfold Qdiv. reflexivity. Qed.

(** X6. For a time step [dt >= 0], [updatePlayer] adds to [vy] the gravity
    of at most two frames: [GRAVITY * dt / 16.6667] up to 33.3334 ms and
    1.8 beyond; the distance added to [y] is the new [vy] times the whole
    [dt / 16.6667], then clamped. *)
Theorem gravity_capped (dt : Q) (st : Game) :
  sized (playerRef st) -> 0 <= dt ->
  let vy := p_vy (playerRef st) in
  let vy' := p_vy (playerRef (updatePlayer dt st)) in
  vy <= vy' /\ vy' <= vy + 2 * GRAVITY
  /\ (dt <= 2 * FRAME_MS -> vy' == vy + GRAVITY * (dt / FRAME_MS))
  /\ (2 * FRAME_MS <= dt -> vy' == vy + 2 * GRAVITY)
  /\ p_y (playerRef (updatePlayer dt st)) ==
     Qmax 0 (Qmin (GAME_HEIGHT - PLAYER_SIZE)
                  (p_y (playerRef st) + vy' * (dt / FRAME_MS))).
Proof.
  intros S Hdt vy vy'. unfold vy', vy.
  destruct (updatePlayer_vertical dt st (sized_fits _ S)) as [Ey E].
  rewrite E, Ey. destruct S as [_ Sh]. rewrite Sh. unfold freeY.
  assert (V : p_vy (playerRef st) <=
              p_vy (playerRef st) + GRAVITY * Qmin (dt / FRAME_MS) 2
              /\ p_vy (playerRef st) + GRAVITY * Qmin (dt / FRAME_MS) 2 <=
                 p_vy (playerRef st) + 2 * GRAVITY
              /\ (dt <= 2 * FRAME_MS ->
                  p_vy (playerRef st) + GRAVITY * Qmin (dt / FRAME_MS) 2 ==
                  p_vy (playerRef st) + GRAVITY * (dt / FRAME_MS))
              /\ (2 * FRAME_MS <= dt ->
                  p_vy (playerRef st) + GRAVITY * Qmin (dt / FRAME_MS) 2 ==
                  p_vy (playerRef st) + 2 * GRAVITY)).
  { destruct (Q.min_spec (dt / FRAME_MS) 2) as [[L M] | [L M]];
      rewrite M; rewrite frame_ratio in *;
      unfold GRAVITY, FRAME_MS in *; repeat split; intros; lra. }
  destruct V as (V1 & V2 & V3 & V4).
  split; [exact V1 |]. split; [exact V2 |]. split; [exact V3 |].
  split; [exact V4 |]. reflexivity.
Qed.

Lemma gravity_capped_witness :
  let vy := p_vy (playerRef falling) in
  let vy' := p_vy (playerRef (updatePlayer (3 * FRAME_MS) falling)) in
  vy <= vy' /\ vy' <= vy + 2 * GRAVITY
  /\ (3 * FRAME_MS <= 2 * FRAME_MS ->
      vy' == vy + GRAVITY * (3 * FRAME_MS / FRAME_MS))
  /\ (2 * FRAME_MS <= 3 * FRAME_MS -> vy' == vy + 2 * GRAVITY)
  /\ p_y (playerRef (updatePlayer (3 * FRAME_MS) falling)) ==
     Qmax 0 (Qmin (GAME_HEIGHT - PLAYER_SIZE)
                  (p_y (playerRef falling) + vy' * (3 * FRAME_MS / FRAME_MS))).
Proof.
  apply (gravity_capped (3 * FRAME_MS) falling).
  - split; reflexivity.
  - unfold FRAME_MS. lra.
Defined.

(** X7. With the player inside the world, ArrowLeft alone moves [x] to
    [max(0, x - 6)], ArrowRight alone to [min(666, x + 6)], and no arrow
    leaves [x] as it is, whatever the time step. *)
Theorem horizontal_step (dt : Q) (st : Game) :
  sized (playerRef st) ->
  0 <= p_x (playerRef st) ->
  p_x (playerRef st) <= GAME_WIDTH - PLAYER_SIZE ->
  let x := p_x (playerRef st) in
  let x' := p_x (playerRef (updatePlayer dt st)) in
  let held := keysRef st in
  (held "ArrowLeft"%string = true -> held "ArrowRight"%string = false ->
   x' == Qmax 0 (x - HORIZ_SPEED))
  /\ (held "ArrowLeft"%string = false -> held "ArrowRight"%string = true ->
      x' == Qmin (GAME_WIDTH - PLAYER_SIZE) (x + HORIZ_SPEED))
  /\ (held "ArrowLeft"%string = false -> held "ArrowRight"%string = false ->
      x' == x).
Proof.
  intros [Sw _] X0 X1 x x' held. unfold x', x, held.
  rewrite updatePlayer_x, Sw. unfold steerX.
  unfold GAME_WIDTH, PLAYER_SIZE, HORIZ_SPEED in *.
  repeat split; intros L R; rewrite L, R.
  - rewrite (Q.min_r _ (p_x (playerRef st) - 6)) by lra. reflexivity.
  - destruct (Q.min_spec (700 - 34) (p_x (playerRef st) + 6))
      as [[A M] | [A M]]; rewrite M.
    + apply Q.max_r. lra.
    + apply Q.max_r. lra.
  - apply clamp_inside; lra.
Qed.

Lemma horizontal_step_witness :
  let st := leftHeld in
  let x := p_x (playerRef st) in
  let x' := p_x (playerRef (updatePlayer FRAME_MS st)) in
  let held := keysRef st in
  (held "ArrowLeft"%string = true -> held "ArrowRight"%string = false ->
   x' == Qmax 0 (x - HORIZ_SPEED))
  /\ (held "ArrowLeft"%string = false -> held "ArrowRight"%string = true ->
      x' == Qmin (GAME_WIDTH - PLAYER_SIZE) (x + HORIZ_SPEED))
  /\ (held "ArrowLeft"%string = false -> held "ArrowRight"%string = false ->
      x' == x).
Proof.
  apply (horizontal_step FRAME_MS leftHeld).
  - split; reflexivity.
  - apply Qle_bool_imp_le. reflexivity.
  - apply Qle_bool_imp_le. reflexivity.
Defined.

Lemma tick_clocks (timestamp : Q) (d : Draws) (st : Game) :
  lastTimeRef (tick timestamp d st) = Some timestamp /\
  (lastSpawnRef (tick timestamp d st) = timestamp \/
   lastSpawnRef (tick timestamp d st) = lastSpawnRef st).
Proof.
  unfold tick. cbv zeta. rewrite updateObstacles_spec. unfold updatePlayer.
  cbn [lastTimeRef lastSpawnRef set_obstaclesRef setScore set_playerRef].
  destruct (_ || _); unfold spawnObstacle;
    cbn [obstaclesRef set_obstaclesRef set_lastTimeRef];
    try destruct (10 <? _)%nat; cbn; auto.
Qed.

Lemma zero_step (timestamp : Q) : (timestamp - timestamp) / FRAME_MS == 0.
Proof. rewrite frame_ratio. ring. Qed.

(** X8. A frame stores its timestamp in [lastTimeRef].  When no time was
    stored (null or 0) the time step is zero: [vy] is unchanged and [y] is
    only clamped.  Otherwise the step is the time since the stored one, and
    [vy] grows by the gravity of that step, capped at two frames. *)
Theorem frame_time_step (v : View) (timestamp : Q) (d : Draws) (st : Game) :
  sized (playerRef st) ->
  let p := playerRef st in
  let p' := playerRef (loop v timestamp d st) in
  lastTimeRef (loop v timestamp d st) = Some timestamp
  /\ (unset (lastTimeRef st) = true ->
      p_vy p' == p_vy p /\
      p_y p' == Qmax 0 (Qmin (GAME_HEIGHT - PLAYER_SIZE) (p_y p)))
  /\ (forall q, lastTimeRef st = Some q -> ~ q == 0 ->
      p_vy p' == p_vy p + GRAVITY * Qmin ((timestamp - q) / FRAME_MS) 2).
Proof.
  intros S p p'. unfold p', p. rewrite loop_player_dt.
  destruct (updatePlayer_vertical (frameDt timestamp st) st (sized_fits _ S))
    as [Ey Ev].
  rewrite Ey, Ev. destruct S as [_ Sh]. rewrite Sh.
  split.
  - pose proof (loop_data v timestamp d st) as (_ & _ & _ & _ & _ & Et).
    cbv zeta in Et. rewrite Et. apply tick_clocks.
  - split.
    + intro U. unfold freeY, frameDt. rewrite U, !zero_step.
      assert (M : Qmin 0 2 == 0) by (apply Q.min_l; lra).
      rewrite M. split; [ring |].
      apply clamp_compat. ring.
    + intros q E N. unfold frameDt. rewrite E. cbn [unset].
      destruct (Qeq_bool q 0) eqn:B.
      * apply Qeq_bool_eq in B. contradiction.
      * reflexivity.
Qed.

Lemma frame_time_step_witness :
  let st := midGame in
  let p := playerRef st in
  let p' := playerRef (loop (view_of st) 1050 sampleDraws st) in
  lastTimeRef (loop (view_of st) 1050 sampleDraws st) = Some 1050
  /\ (unset (lastTimeRef st) = true ->
      p_vy p' == p_vy p /\
      p_y p' == Qmax 0 (Qmin (GAME_HEIGHT - PLAYER_SIZE) (p_y p)))
  /\ (forall q, lastTimeRef st = Some q -> ~ q == 0 ->
      p_vy p' == p_vy p + GRAVITY * Qmin ((1050 - q) / FRAME_MS) 2).
Proof.
  apply (frame_time_step (view_of midGame) 1050 sampleDraws midGame).
  split; reflexivity.
Defined.

(** X9. A press of Space or ArrowUp seen by a running handler sets [vy] to
    -14 and lifts [y] by 2 without touching [x]; after the next frame [vy]
    is -14 plus that frame's gravity, whatever it was before the jump, and
    the player is inside the world. *)
Theorem jump_then_frame
  (v w : View) (code : string) (timestamp : Q) (d : Draws) (st : Game) :
  sized (playerRef st) ->
  v_running v = true ->
  code = "Space"%string \/ code = "ArrowUp"%string ->
  let p := playerRef st in
  let jumped := onKeyDown v code st in
  let p' := playerRef (loop w timestamp d jumped) in
  let step := frameDt timestamp st / FRAME_MS in
  p_vy (playerRef jumped) = JUMP_VELOCITY
  /\ p_y (playerRef jumped) = p_y p - 2
  /\ p_x (playerRef jumped) = p_x p
  /\ p_vy p' == JUMP_VELOCITY + GRAVITY * Qmin step 2
  /\ p_y p' ==
     Qmax 0 (Qmin (GAME_HEIGHT - PLAYER_SIZE)
                  (p_y p - 2 + (JUMP_VELOCITY + GRAVITY * Qmin step 2) * step))
  /\ inBounds p'.
Proof.
  intros S R J p jumped p' step. unfold p', jumped, step, p.
  rewrite (onKeyDown_jump v code st R J).
  cbn [playerRef set_playerRef p_vy p_y p_x].
  split; [reflexivity |]. split; [reflexivity |]. split; [reflexivity |].
  set (j := set_playerRef _ _).
  assert (Sj : sized (playerRef j)).
  { destruct S as [Sw Sh]. split; cbn; assumption. }
  assert (Dj : frameDt timestamp j = frameDt timestamp st) by reflexivity.
  rewrite loop_player_dt, Dj.
  destruct (updatePlayer_vertical (frameDt timestamp st) j (sized_fits _ Sj))
    as [Ey Ev].
  split; [rewrite Ev; reflexivity |].
  split.
  - rewrite Ey. destruct Sj as [_ Sh]. rewrite Sh. reflexivity.
  - apply updatePlayer_inBounds. exact Sj.
Qed.

Lemma jump_then_frame_witness :
  let v := view_of midGame in
  let p := playerRef midGame in
  let jumped := onKeyDown v "Space" midGame in
  let p' := playerRef (loop v 1050 sampleDraws jumped) in
  let step := frameDt 1050 midGame / FRAME_MS in
  p_vy (playerRef jumped) = JUMP_VELOCITY
  /\ p_y (playerRef jumped) = p_y p - 2
  /\ p_x (playerRef jumped) = p_x p
  /\ p_vy p' == JUMP_VELOCITY + GRAVITY * Qmin step 2
  /\ p_y p' ==
     Qmax 0 (Qmin (GAME_HEIGHT - PLAYER_SIZE)
                  (p_y p - 2 + (JUMP_VELOCITY + GRAVITY * Qmin step 2) * step))
  /\ inBounds p'.
Proof.
  apply (jump_then_frame (view_of midGame) (view_of midGame) "Space" 1050
           sampleDraws midGame).
  - split; reflexivity.
  - reflexivity.
  - left. reflexivity.
Defined.

(** ** Collisions *)

Lemma bottomRect_reach (ob : Obstacle) :
  r_y (bottomRect ob) + r_h (bottomRect ob) == GAME_HEIGHT.
Proof. cbn [bottomRect r_y r_h]. ring. Qed.

(** For a player inside the world, missing both barriers is being clear of
    the obstacle. *)
Lemma hits_false_iff (p : Player) (ob : Obstacle) :
  0 <= p_y p + p_height p -> p_y p <= GAME_HEIGHT ->
  hits p ob = false <-> clearOf p ob.
Proof.
  intros H0 H1. unfold hits, clearOf.
  rewrite orb_false_iff, <- !not_true_iff_false, !rectIntersect_true.
  pose proof (bottomRect_reach ob) as B.
  cbn [topRect bottomRect r_x r_y r_w r_h] in *.
  split.
  - intros [T Bt].
    destruct (Qlt_le_dec (p_x p + p_width p) (ob_x ob)) as [A | A];
      [left; exact A |].
    destruct (Qlt_le_dec (ob_x ob + ob_width ob) (p_x p)) as [C | C];
      [right; left; exact C |].
    right; right. split.
    + apply Qnot_le_lt. intro Le. apply T. repeat split; lra.
    + apply Qnot_le_lt. intro Le. apply Bt. repeat split; lra.
  - intros [A | [A | [A C]]]; split; intros (X1 & X2 & Y1 & Y2); lra.
Qed.

Lemma collides_hits (st : Game) :
  collides st = existsb (hits (playerRef st)) (obstaclesRef st).
Proof. reflexivity. Qed.

(** X10. For a player inside the world, [detectCollisions] leaves the state
    unchanged when the player is clear of every obstacle (beside it, or
    strictly inside its gap), and ends the game as soon as it is not clear
    of one; it never changes the player, the obstacles or the score. *)
Theorem gap_is_safe (v : View) (st : Game) :
  sized (playerRef st) -> inBounds (playerRef st) ->
  let p := playerRef st in
  ((forall ob, In ob (obstaclesRef st) -> clearOf p ob) ->
   detectCollisions v st = st)
  /\ (forall ob, In ob (obstaclesRef st) -> ~ clearOf p ob ->
      running (detectCollisions v st) = false /\
      gameOver (detectCollisions v st) = true)
  /\ playerRef (detectCollisions v st) = p
  /\ obstaclesRef (detectCollisions v st) = obstaclesRef st
  /\ score (detectCollisions v st) = score st.
Proof.
  intros [Sw Sh] (_ & _ & Y0 & Y1) p. unfold p.
  rewrite Sh in Y1.
  assert (H0 : 0 <= p_y (playerRef st) + p_height (playerRef st)).
  { rewrite Sh. unfold PLAYER_SIZE. lra. }
  assert (H1 : p_y (playerRef st) <= GAME_HEIGHT).
  { unfold PLAYER_SIZE, GAME_HEIGHT in *. lra. }
  rewrite detectCollisions_spec, collides_hits.
  split; [| split].
  - intro C.
    assert (E : existsb (hits (playerRef st)) (obstaclesRef st) = false).
    { apply not_true_iff_false. rewrite existsb_exists.
      intros (ob & Hin & Hh).
      apply C in Hin. apply (hits_false_iff _ ob H0 H1) in Hin. congruence. }
    rewrite E. reflexivity.
  - intros ob Hin N.
    assert (E : existsb (hits (playerRef st)) (obstaclesRef st) = true).
    { apply existsb_exists. exists ob. split; [exact Hin |].
      apply not_false_iff_true. intro F.
      apply N. apply (hits_false_iff _ ob H0 H1). exact F. }
    rewrite E.
    pose proof (stopGame_fields v true st) as (Sr & Sg & _). tauto.
  - pose proof (stopGame_fields v true st) as (_ & _ & _ & Ss & Sp & So & _).
    destruct (existsb _ _); tauto.
Qed.

Lemma gap_is_safe_witness :
  let st := inGap in
  let v := view_of inGap in
  let p := playerRef st in
  ((forall ob, In ob (obstaclesRef st) -> clearOf p ob) ->
   detectCollisions v st = st)
  /\ (forall ob, In ob (obstaclesRef st) -> ~ clearOf p ob ->
      running (detectCollisions v st) = false /\
      gameOver (detectCollisions v st) = true)
  /\ playerRef (detectCollisions v st) = p
  /\ obstaclesRef (detectCollisions v st) = obstaclesRef st
  /\ score (detectCollisions v st) = score st.
Proof.
  apply (gap_is_safe (view_of inGap) inGap).
  - split; reflexivity.
  - unfold inBounds. cbn.
    repeat split; apply Qle_bool_imp_le; reflexivity.
Defined.

Lemma filter_twice (h : positive) (fr : list positive) :
  filter (fun k => negb (Pos.eqb k h)) (filter (fun k => negb (Pos.eqb k h)) fr)
  = filter (fun k => negb (Pos.eqb k h)) fr.
Proof.
  induction fr as [| a l IH]; [reflexivity |].
  cbn [filter]. destruct (negb (Pos.eqb a h)) eqn:E.
  - cbn [filter]. rewrite E, IH. reflexivity.
  - exact IH.
Qed.

Lemma stopGame_twice (v : View) (b : bool) (st : Game) :
  stopGame v b (stopGame v b st) = stopGame v b st.
Proof.
  unfold stopGame.
  destruct st as [r s b0 g p o k ls [h |] lt fr nh];
    destruct (v_score v >? v_best v)%Z;
    cbv beta iota delta
      [cancelAnimationFrame setBest setGameOver setRunning set_frames
       running score best gameOver playerRef obstaclesRef keysRef
       lastSpawnRef animationRef lastTimeRef frames nextHandle];
    try rewrite filter_twice; reflexivity.
Qed.

(** X11. [detectCollisions] and [stopGame] are idempotent: a second call
    with the same reads changes nothing more, and a state that collided
    still collides. *)
Theorem detectCollisions_twice (v : View) (st : Game) :
  detectCollisions v (detectCollisions v st) = detectCollisions v st
  /\ stopGame v true (detectCollisions v st) = stopGame v true st
  /\ collides (detectCollisions v st) = collides st.
Proof.
  rewrite !detectCollisions_spec.
  assert (C : collides (stopGame v true st) = collides st).
  { unfold collides.
    pose proof (stopGame_fields v true st) as (_ & _ & _ & _ & Sp & So & _).
    rewrite Sp, So. reflexivity. }
  destruct (collides st) eqn:E.
  - rewrite C, stopGame_twice. auto.
  - rewrite E. auto.
Qed.

(** ** Score *)

Lemma tick_score (timestamp : Q) (d : Draws) (st : Game) :
  exists dt px src,
    obstaclesRef (tick timestamp d st) =
      filter onScreen (map (stepObstacle dt px) src) /\
    score (tick timestamp d st) =
      (score st + Z.of_nat (List.length (filter (scoresNow dt px) src)))%Z /\
    (src = obstaclesRef st \/ src = obstaclesRef (spawnObstacle d st)).
Proof.
  unfold tick. cbv zeta.
  set (dt := timestamp - _).
  set (s1 := if _ || _ then _ else _).
  exists dt, (p_x (playerRef (updatePlayer dt s1))), (obstaclesRef s1).
  assert (Es : score s1 = score st).
  { subst s1. destruct (_ || _); [| reflexivity].
    unfold spawnObstacle. cbn [obstaclesRef set_obstaclesRef].
    destruct (10 <? _)%nat; reflexivity. }
  split; [rewrite updateObstacles_spec; reflexivity |]. split.
  - rewrite updateObstacles_spec.
    cbn [score set_obstaclesRef setScore]. unfold updatePlayer.
    cbn [score set_playerRef obstaclesRef]. rewrite Es. reflexivity.
  - subst s1. destruct (_ || _); [right | left]; [| reflexivity].
    cbn [obstaclesRef set_lastSpawnRef].
    rewrite !spawnObstacle_obstacles. reflexivity.
Qed.

Lemma unpassed_tl (l : list Obstacle) : (unpassed (tl l) <= unpassed l)%nat.
Proof.
  destruct l as [| o l]; [cbn; lia |].
  unfold unpassed. cbn [tl filter]. destruct (negb (ob_passed o)); cbn; lia.
Qed.

Lemma unpassed_spawn (d : Draws) (st : Game) :
  (unpassed (obstaclesRef (spawnObstacle d st))
   <= unpassed (obstaclesRef st) + 1)%nat.
Proof.
  rewrite spawnObstacle_obstacles.
  assert (A : unpassed (obstaclesRef st ++ [newObstacle d]) =
              (unpassed (obstaclesRef st) + 1)%nat).
  { unfold unpassed. rewrite filter_app, length_app. reflexivity. }
  destruct (10 <? _)%nat; [| lia].
  pose proof (unpassed_tl (obstaclesRef st ++ [newObstacle d])). lia.
Qed.

Lemma loop_score (v : View) (timestamp : Q) (d : Draws) (st : Game) :
  let st' := loop v timestamp d st in
  (score st <= score st')%Z /\
  (score st' + Z.of_nat (unpassed (obstaclesRef st'))
   <= score st + Z.of_nat (unpassed (obstaclesRef st)) + 1)%Z.
Proof.
  intro st'. unfold st'.
  pose proof (loop_data v timestamp d st) as (Eo & Es & _).
  cbv zeta in Eo, Es. rewrite Eo, Es.
  destruct (tick_score timestamp d st) as (dt & px & src & E1 & E2 & Hs).
  rewrite E1, E2.
  pose proof (scored_plus_unpassed dt px src) as P.
  assert (U : (unpassed src <= unpassed (obstaclesRef st) + 1)%nat).
  { destruct Hs as [-> | ->]; [lia | apply unpassed_spawn]. }
  lia.
Qed.

Lemma startGame_score (st : Game) : score (startGame st) = 0%Z.
Proof. exact (f_equal e_score (startGame_engine st)). Qed.

Lemma handle_score (e : Event) (st : Game) :
  (0 <= score st)%Z -> (0 <= score (handle e st))%Z.
Proof.
  intro H. destruct e as [h v timestamp d | v code | code | |]; cbn [handle].
  - destruct (pending h st); [| exact H].
    pose proof (loop_score v timestamp d (cancelAnimationFrame h st)) as [L _].
    cbn [score cancelAnimationFrame set_frames] in L. lia.
  - unfold onKeyDown.
    destruct (v_running v && _); destruct (negb (v_running v) && _ && _);
      rewrite ?startGame_score; cbn; lia.
  - exact H.
  - unfold onStartClick. rewrite startGame_score. lia.
  - unfold onRestartClick. rewrite startGame_score. lia.
Qed.

Lemma loop_score_cap (v : View) (timestamp : Q) (d : Draws) (st : Game) :
  (List.length (obstaclesRef st) <= 10)%nat ->
  (score (loop v timestamp d st) <= score st + 10)%Z.
Proof.
  intro C.
  pose proof (loop_data v timestamp d st) as (_ & Es & _).
  cbv zeta in Es. rewrite Es.
  destruct (tick_score timestamp d st) as (dt & px & src & _ & E2 & Hs).
  rewrite E2.
  assert (L : (List.length src <= 10)%nat).
  { destruct Hs as [-> | ->]; [exact C | apply spawnObstacle_length; exact C]. }
  pose proof (filter_length_le (scoresNow dt px) src). lia.
Qed.

(** X12. In every state reached from mounting the score is not negative.
    A frame never lowers it, raises it by at most ten, and whatever it adds
    is taken from the obstacles not yet passed, the one it spawns
    included. *)
Theorem frame_score_bounds
  (best0 : Z) (evs : list Event) (v : View) (timestamp : Q) (d : Draws) :
  let st := run evs (initialGame best0) in
  let st' := loop v timestamp d st in
  (0 <= score st)%Z
  /\ (score st <= score st')%Z
  /\ (score st' + Z.of_nat (unpassed (obstaclesRef st'))
      <= score st + Z.of_nat (unpassed (obstaclesRef st)) + 1)%Z
  /\ (score st' <= score st + 10)%Z.
Proof.
  intros st st'.
  assert (H : (0 <= score st)%Z).
  { apply (run_invariant (fun _ => True) (fun s => (0 <= score s)%Z)).
    - intros e s _. apply handle_score.
    - apply Forall_any.
    - cbn. lia. }
  destruct (loop_score v timestamp d st) as [L1 L2]. fold st' in L1, L2.
  split; [exact H |]. split; [exact L1 |]. split; [exact L2 |].
  apply loop_score_cap. apply capped_run.
Qed.

(** ** The first frame of a game *)

Lemma startGame_clocks (st : Game) :
  lastTimeRef (startGame st) = None /\ lastSpawnRef (startGame st) = 0.
Proof.
  pose proof (startGame_engine st) as E.
  split; [exact (f_equal e_lastTime E) | exact (f_equal e_lastSpawn E)].
Qed.

(** With no time stored and the spawn clock at zero, a frame spawns and
    runs its physics with a zero time step. *)
Lemma tick_fresh (timestamp : Q) (d : Draws) (s0 : Game) :
  lastTimeRef s0 = None -> lastSpawnRef s0 = 0 ->
  tick timestamp d s0 =
  updateObstacles (timestamp - timestamp)
    (updatePlayer (timestamp - timestamp)
       (set_lastSpawnRef timestamp
          (spawnObstacle d (set_lastTimeRef (Some timestamp) s0)))).
Proof.
  intros Et Es. unfold tick. cbv zeta.
  assert (L : lastSpawnRef (set_lastTimeRef (Some timestamp) s0) = 0)
    by exact Es.
  rewrite L, Et. cbn [unset].
  assert (T : Qeq_bool 0 0 = true) by reflexivity.
  rewrite T, orb_true_r. reflexivity.
Qed.

(** With a zero time step a fresh obstacle stays at the right edge, on
    screen, and scores against no player inside the world. *)
Lemma fresh_obstacle_still (dt px : Q) (d : Draws) :
  dt / FRAME_MS == 0 -> px <= GAME_WIDTH - PLAYER_SIZE ->
  ob_x (advance dt (newObstacle d)) == GAME_WIDTH + 20 /\
  onScreen (advance dt (newObstacle d)) = true /\
  scoresNow dt px (newObstacle d) = false /\
  stepObstacle dt px (newObstacle d) = advance dt (newObstacle d).
Proof.
  intros Z0 Hpx.
  assert (X0 : ob_x (advance dt (newObstacle d)) == GAME_WIDTH + 20).
  { unfold advance. cbn [ob_x set_ob_x newObstacle]. rewrite Z0. ring. }
  assert (NS : scoresNow dt px (newObstacle d) = false).
  { apply Qltb_ge. rewrite X0. cbn [ob_width advance set_ob_x newObstacle].
    unfold GAME_WIDTH, PLAYER_SIZE, OBSTACLE_WIDTH in *. lra. }
  split; [exact X0 |]. split; [| split; [exact NS |]].
  - apply Qgtb_gt. rewrite X0. cbn [ob_width advance set_ob_x newObstacle].
    unfold GAME_WIDTH, OBSTACLE_WIDTH. lra.
  - unfold stepObstacle. unfold scoresNow in NS. rewrite NS. reflexivity.
Qed.

(** With a zero time step the initial player keeps its height and its
    velocity. *)
Lemma initial_player_still (dt : Q) (s1 : Game) :
  dt / FRAME_MS == 0 -> playerRef s1 = initialPlayer ->
  inBounds (playerRef (updatePlayer dt s1)) /\
  sized (playerRef (updatePlayer dt s1)) /\
  p_y (playerRef (updatePlayer dt s1)) == GAME_HEIGHT / 2 /\
  p_vy (playerRef (updatePlayer dt s1)) == 0.
Proof.
  intros Z0 Ep.
  assert (Sz : sized (playerRef s1)) by (rewrite Ep; apply sized_initial).
  pose proof (updatePlayer_inBounds dt s1 Sz) as B.
  destruct (updatePlayer_size dt s1) as [Ew Eh].
  destruct (updatePlayer_vertical dt s1 (sized_fits _ Sz)) as [Ey Ev].
  split; [exact B |]. split.
  - destruct Sz as [A1 A2]. split; congruence.
  - rewrite Ey, Ev, Ep. unfold freeY.
    cbn [p_y p_vy p_height initialPlayer]. rewrite Z0.
    assert (M : Qmin 0 2 == 0) by (apply Q.min_l; lra).
    split.
    + transitivity
        (Qmax 0 (Qmin (GAME_HEIGHT - PLAYER_SIZE) (GAME_HEIGHT / 2))).
      * apply clamp_compat. ring.
      * apply clamp_inside; apply Qle_bool_imp_le; reflexivity.
    + rewrite M. ring.
Qed.

(** A player inside the world is clear of an obstacle at the right edge. *)
Lemma beside_is_clear (p : Player) (ob : Obstacle) :
  sized p -> inBounds p -> ob_x ob == GAME_WIDTH + 20 -> hits p ob = false.
Proof.
  intros [Sw Sh] (_ & X1 & Y0 & Y1) Ox.
  rewrite Sw in X1. rewrite Sh in Y1.
  apply hits_false_iff.
  - rewrite Sh. unfold PLAYER_SIZE. lra.
  - unfold PLAYER_SIZE, GAME_HEIGHT in *. lra.
  - left. rewrite Ox, Sw. unfold GAME_WIDTH, PLAYER_SIZE in *. lra.
Qed.

Lemma updatePlayer_data (dt : Q) (s1 : Game) :
  obstaclesRef (updatePlayer dt s1) = obstaclesRef s1 /\
  score (updatePlayer dt s1) = score s1 /\
  lastSpawnRef (updatePlayer dt s1) = lastSpawnRef s1.
Proof. unfold updatePlayer. cbn. repeat split; reflexivity. Qed.

Lemma updateObstacles_data (dt : Q) (s1 : Game) :
  obstaclesRef (updateObstacles dt s1) =
    filter onScreen
      (map (stepObstacle dt (p_x (playerRef s1))) (obstaclesRef s1)) /\
  score (updateObstacles dt s1) =
    (score s1 + Z.of_nat (List.length
       (filter (scoresNow dt (p_x (playerRef s1))) (obstaclesRef s1))))%Z /\
  lastSpawnRef (updateObstacles dt s1) = lastSpawnRef s1 /\
  playerRef (updateObstacles dt s1) = playerRef s1.
Proof. rewrite updateObstacles_spec. cbn. repeat split; reflexivity. Qed.

(** One call of the physics with a zero time step on the initial player
    and one fresh obstacle: nothing moves, nothing scores, nothing hits. *)
Lemma quiet_tick (dt : Q) (d : Draws) (s1 : Game) :
  dt / FRAME_MS == 0 ->
  playerRef s1 = initialPlayer -> obstaclesRef s1 = [newObstacle d] ->
  let t := updateObstacles dt (updatePlayer dt s1) in
  score t = score s1 /\ lastSpawnRef t = lastSpawnRef s1 /\
  inBounds (playerRef t) /\ sized (playerRef t) /\
  p_y (playerRef t) == GAME_HEIGHT / 2 /\ p_vy (playerRef t) == 0 /\
  obstaclesRef t = [advance dt (newObstacle d)] /\
  collides t = false.
Proof.
  intros Z0 Ep Eo t.
  destruct (initial_player_still dt s1 Z0 Ep) as (B & Sz & Y & V).
  destruct (updatePlayer_data dt s1) as (Po & Ps & Pl).
  destruct (updateObstacles_data dt (updatePlayer dt s1))
    as (Uo & Us & Ul & Up).
  fold t in Uo, Us, Ul, Up.
  assert (X : p_x (playerRef (updatePlayer dt s1)) <= GAME_WIDTH - PLAYER_SIZE).
  { destruct B as (_ & B & _). destruct Sz as [A _]. rewrite A in B. exact B. }
  destruct (fresh_obstacle_still dt _ d Z0 X) as (Ox & On & NS & St).
  rewrite Po, Eo in Uo, Us. cbn [map filter] in Uo, Us.
  rewrite St, On in Uo. rewrite NS in Us. cbn [List.length Z.of_nat] in Us.
  clearbody t.
  rewrite Up, Uo, Ul, Pl.
  split; [lia |]. split; [reflexivity |].
  split; [exact B |]. split; [exact Sz |].
  split; [exact Y |]. split; [exact V |]. split; [reflexivity |].
  rewrite collides_hits, Uo, Up. cbn [existsb]. rewrite orb_false_r.
  exact (beside_is_clear _ _ Sz B Ox).
Qed.

Lemma advance_fields (dt : Q) (ob : Obstacle) :
  ob_passed (advance dt ob) = ob_passed ob /\
  ob_gapTop (advance dt ob) = ob_gapTop ob /\
  ob_gapHeight (advance dt ob) = ob_gapHeight ob /\
  ob_speed (advance dt ob) = ob_speed ob /\
  ob_width (advance dt ob) = ob_width ob.
Proof. destruct ob. cbn. repeat split; reflexivity. Qed.

Lemma newObstacle_unpassed (d : Draws) : ob_passed (newObstacle d) = false.
Proof. reflexivity. Qed.

(** A frame on a state just reset: no time stored, spawn clock at zero,
    the initial player, no obstacles. *)
Lemma fresh_frame (v : View) (timestamp : Q) (d : Draws) (s0 : Game) :
  lastTimeRef s0 = None -> lastSpawnRef s0 = 0 ->
  playerRef s0 = initialPlayer -> obstaclesRef s0 = [] ->
  let st' := loop v timestamp d s0 in
  running st' = running s0 /\ gameOver st' = gameOver s0
  /\ score st' = score s0 /\ best st' = best s0
  /\ lastTimeRef st' = Some timestamp /\ lastSpawnRef st' = timestamp
  /\ inBounds (playerRef st')
  /\ p_y (playerRef st') == GAME_HEIGHT / 2 /\ p_vy (playerRef st') == 0
  /\ obstaclesRef st' = [advance (timestamp - timestamp) (newObstacle d)].
Proof.
  intros Ht Hs Hp Ho st'. unfold st'.
  pose proof (tick_fresh timestamp d s0 Ht Hs) as Et.
  set (s1 := set_lastSpawnRef timestamp
               (spawnObstacle d (set_lastTimeRef (Some timestamp) s0))) in Et.
  assert (Ep : playerRef s1 = initialPlayer).
  { unfold s1. cbn [playerRef set_lastSpawnRef].
    destruct (spawnObstacle_control d (set_lastTimeRef (Some timestamp) s0))
      as [_ E].
    rewrite E. exact Hp. }
  assert (Eo : obstaclesRef s1 = [newObstacle d]).
  { unfold s1. cbn [obstaclesRef set_lastSpawnRef].
    rewrite spawnObstacle_obstacles. cbn [obstaclesRef set_lastTimeRef].
    rewrite Ho. reflexivity. }
  assert (Es : score s1 = score s0).
  { unfold s1. cbn [score set_lastSpawnRef]. unfold spawnObstacle.
    cbn [obstaclesRef set_obstaclesRef].
    destruct (10 <? _)%nat; reflexivity. }
  assert (El : lastSpawnRef s1 = timestamp) by reflexivity.
  destruct (quiet_tick (timestamp - timestamp) d s1 (zero_step timestamp)
              Ep Eo) as (Qs & Ql & Qb & _ & Qy & Qv & Qo & Qc).
  rewrite <- Et in Qs, Ql, Qb, Qy, Qv, Qo, Qc.
  rewrite Es in Qs. rewrite El in Ql.
  pose proof (loop_data v timestamp d s0) as (Lo & Lsc & Lp & _ & Lsp & Lt).
  pose proof (loop_control v timestamp d s0) as (Lr & Lg & _).
  pose proof (loop_best v timestamp d s0) as Lb.
  destruct (tick_clocks timestamp d s0) as [Tt _].
  cbv zeta in Lo, Lsc, Lp, Lsp, Lt, Lr, Lg.
  rewrite Qc in Lr, Lg, Lb.
  clearbody s1.
  rewrite Lr, Lg, Lsc, Lb, Lt, Lsp, Lp, Lo.
  split; [reflexivity |]. split; [reflexivity |]. split; [exact Qs |].
  split; [reflexivity |]. split; [exact Tt |]. split; [exact Ql |].
  split; [exact Qb |]. split; [exact Qy |]. split; [exact Qv |].
  exact Qo.
Qed.

(** X13. The first frame after [startGame], at any timestamp and with any
    keys held, runs with a zero time step: the game stays running with
    score 0 and best untouched, both clocks are set to the timestamp, the
    player keeps [y = GAME_HEIGHT / 2] and [vy = 0], and the list holds
    exactly the one obstacle just spawned, at [x = GAME_WIDTH + 20], not
    passed. *)
Theorem first_frame_after_start
  (v : View) (timestamp : Q) (d : Draws) (st : Game) :
  let st' := loop v timestamp d (startGame st) in
  running st' = true /\ gameOver st' = false
  /\ score st' = 0%Z /\ best st' = best st
  /\ lastTimeRef st' = Some timestamp /\ lastSpawnRef st' = timestamp
  /\ inBounds (playerRef st')
  /\ p_y (playerRef st') == GAME_HEIGHT / 2 /\ p_vy (playerRef st') == 0
  /\ exists ob,
       obstaclesRef st' = [ob] /\ ob_x ob == GAME_WIDTH + 20 /\
       ob_passed ob = false /\
       ob_gapTop ob = ob_gapTop (newObstacle d) /\
       ob_gapHeight ob = ob_gapHeight (newObstacle d) /\
       ob_speed ob = ob_speed (newObstacle d).
Proof.
  intro st'. unfold st'.
  destruct (startGame_clocks st) as [Ht Hs].
  destruct (fresh_frame v timestamp d (startGame st) Ht Hs
              (startGame_player st) (startGame_obstacles st))
    as (Fr & Fg & Fs & Fb & Ft & Fl & Fi & Fy & Fv & Fo).
  destruct (startGame_control st) as [Sr Sg].
  rewrite Fr, Fg, Fs, Fb, Ft, Fl, Fo.
  split; [exact Sr |]. split; [exact Sg |].
  split; [apply startGame_score |]. split; [apply startGame_best |].
  split; [reflexivity |]. split; [reflexivity |].
  split; [exact Fi |]. split; [exact Fy |]. split; [exact Fv |].
  exists (advance (timestamp - timestamp) (newObstacle d)).
  split; [reflexivity |].
  destruct (fresh_obstacle_still (timestamp - timestamp) 0 d
              (zero_step timestamp)) as (Ox & _).
  { apply Qle_bool_imp_le. reflexivity. }
  split; [exact Ox |].
  destruct (advance_fields (timestamp - timestamp) (newObstacle d))
    as (Fp & Fgt & Fh & Fsp & _).
  rewrite Fp, newObstacle_unpassed. auto.
Qed.

(** ** Spawning and motion *)

Lemma tick_spawn (timestamp : Q) (d : Draws) (st : Game) :
  exists dt px,
    lastSpawnRef (tick timestamp d st) =
      (if spawnDue timestamp st then timestamp else lastSpawnRef st) /\
    obstaclesRef (tick timestamp d st) =
      filter onScreen
        (map (stepObstacle dt px)
             (if spawnDue timestamp st
              then obstaclesRef (spawnObstacle d st)
              else obstaclesRef st)).
Proof.
  unfold tick, spawnDue. cbv zeta.
  set (dt := timestamp - _).
  cbn [lastSpawnRef set_lastTimeRef].
  set (c := _ || _).
  set (s1 := if c then _ else _).
  exists dt, (p_x (playerRef (updatePlayer dt s1))).
  destruct (updatePlayer_data dt s1) as (Po & _ & Pl).
  destruct (updateObstacles_data dt (updatePlayer dt s1)) as (Uo & _ & Ul & _).
  rewrite Ul, Pl, Uo, Po. unfold s1. destruct c.
  - cbn [lastSpawnRef obstaclesRef set_lastSpawnRef].
    rewrite !spawnObstacle_obstacles. split; reflexivity.
  - split; reflexivity.
Qed.

Lemma spawnObstacle_grows (d : Draws) (st : Game) :
  (List.length (obstaclesRef (spawnObstacle d st))
   <= List.length (obstaclesRef st) + 1)%nat.
Proof.
  rewrite spawnObstacle_obstacles.
  destruct (10 <? _)%nat.
  - destruct (obstaclesRef st); cbn; [lia |].
    rewrite length_app. cbn. lia.
  - rewrite length_app. cbn. lia.
Qed.

(** X14. A frame adds at most one obstacle.  With the spawn clock not zero
    and at most 1600 ms behind the timestamp it spawns nothing and leaves
    the clock; with the clock at zero or more than 1600 ms behind it sets
    the clock to the timestamp. *)
Theorem spawn_cadence (v : View) (timestamp : Q) (d : Draws) (st : Game) :
  let st' := loop v timestamp d st in
  (List.length (obstaclesRef st') <= List.length (obstaclesRef st) + 1)%nat
  /\ (~ lastSpawnRef st == 0 ->
      timestamp - lastSpawnRef st <= OBSTACLE_INTERVAL ->
      lastSpawnRef st' = lastSpawnRef st /\
      (List.length (obstaclesRef st') <= List.length (obstaclesRef st))%nat)
  /\ (lastSpawnRef st == 0 \/ OBSTACLE_INTERVAL < timestamp - lastSpawnRef st ->
      lastSpawnRef st' = timestamp).
Proof.
  intro st'. unfold st'.
  pose proof (loop_data v timestamp d st) as (Lo & _ & _ & _ & Ls & _).
  cbv zeta in Lo, Ls. rewrite Lo, Ls.
  destruct (tick_spawn timestamp d st) as (dt & px & El & Eo).
  rewrite El, Eo. split; [| split].
  - eapply Nat.le_trans; [apply length_moved |].
    destruct (spawnDue timestamp st); [apply spawnObstacle_grows | lia].
  - intros N L.
    assert (F : spawnDue timestamp st = false).
    { unfold spawnDue. apply orb_false_iff. split.
      - apply Qgtb_le. exact L.
      - apply not_true_iff_false. intro T. apply Qeq_bool_eq in T.
        contradiction. }
    rewrite F. split; [reflexivity | apply length_moved].
  - intros H.
    assert (T : spawnDue timestamp st = true).
    { unfold spawnDue. apply orb_true_iff. destruct H as [Z | G].
      - right. apply Qeq_eq_bool. exact Z.
      - left. apply Qgtb_gt. exact G. }
    rewrite T. reflexivity.
Qed.

(** X15. For a time step [dt >= 0] an obstacle of the list moves left by
    its speed times [dt / 16.6667], that is by between 3.2 and 3.6 units a
    frame; its gap, width, speed and id never change, and once marked
    passed it stays marked. *)
Theorem obstacle_motion (dt px : Q) (ob : Obstacle) :
  liveObstacle ob -> 0 <= dt ->
  let ob' := stepObstacle dt px ob in
  ob_x ob' == ob_x ob - ob_speed ob * (dt / FRAME_MS)
  /\ ob_x ob' <= ob_x ob - OBSTACLE_SPEED * (dt / FRAME_MS)
  /\ ob_x ob - (OBSTACLE_SPEED + 0.4) * (dt / FRAME_MS) <= ob_x ob'
  /\ ob_gapTop ob' = ob_gapTop ob /\ ob_gapHeight ob' = ob_gapHeight ob
  /\ ob_width ob' = ob_width ob /\ ob_speed ob' = ob_speed ob
  /\ ob_id ob' = ob_id ob
  /\ (ob_passed ob = true -> ob_passed ob' = true).
Proof.
  intros (_ & S0 & S1 & _) Hdt ob'.
  assert (R : 0 <= dt / FRAME_MS).
  { rewrite frame_ratio. lra. }
  assert (X : ob_x ob' = ob_x ob - ob_speed ob * (dt / FRAME_MS)).
  { unfold ob', stepObstacle. destruct (justPassed _ _); reflexivity. }
  assert (P : ob_passed ob' = ob_passed ob || scoresNow dt px ob)
    by apply stepObstacle_passed.
  rewrite X. split; [reflexivity |].
  split; [| split].
  - apply Qplus_le_r. apply Qopp_le_compat.
    apply Qmult_le_compat_r; assumption.
  - apply Qplus_le_r. apply Qopp_le_compat.
    apply Qmult_le_compat_r; [apply Qlt_le_weak; exact S1 | exact R].
  - unfold ob', stepObstacle.
    destruct (justPassed _ _); cbn; repeat split; try reflexivity;
      intro H; exact H.
Qed.

Lemma obstacle_motion_witness :
  let ob' := stepObstacle (2 * FRAME_MS) 175 crossing in
  ob_x ob' == ob_x crossing - ob_speed crossing * (2 * FRAME_MS / FRAME_MS)
  /\ ob_x ob' <= ob_x crossing - OBSTACLE_SPEED * (2 * FRAME_MS / FRAME_MS)
  /\ ob_x crossing - (OBSTACLE_SPEED + 0.4) * (2 * FRAME_MS / FRAME_MS)
     <= ob_x ob'
  /\ ob_gapTop ob' = ob_gapTop crossing
  /\ ob_gapHeight ob' = ob_gapHeight crossing
  /\ ob_width ob' = ob_width crossing /\ ob_speed ob' = ob_speed crossing
  /\ ob_id ob' = ob_id crossing
  /\ (ob_passed crossing = true -> ob_passed ob' = true).
Proof.
  apply (obstacle_motion (2 * FRAME_MS) 175 crossing).
  - unfold liveObstacle, crossing.
    cbn [ob_width ob_speed ob_gapHeight ob_gapTop ob_x].
    repeat split; try reflexivity; apply Qle_bool_imp_le; reflexivity.
  - apply Qle_bool_imp_le. reflexivity.
Defined.

(** ** The player between frames *)

Lemma playerOk_handle (e : Event) (st : Game) :
  playerOk (playerRef st) -> playerOk (playerRef (handle e st)).
Proof.
  intros H. pose proof H as (S & X0 & X1 & Y1).
  assert (I : playerOk initialPlayer).
  { split; [apply sized_initial |].
    cbn [initialPlayer p_x p_y p_width p_height].
    repeat split; apply Qle_bool_imp_le; reflexivity. }
  destruct e as [h v timestamp d | v code | code | |]; cbn [handle].
  - destruct (pending h st); [| exact H].
    pose proof (loop_inBounds v timestamp d (cancelAnimationFrame h st) S)
      as (B0 & B1 & _ & B3).
    split; [apply sized_loop; exact S |]. repeat split; assumption.
  - unfold onKeyDown.
    destruct (negb (v_running v) && _ && _);
      [rewrite startGame_player; exact I |].
    destruct (v_running v && _); [| exact H].
    cbn [playerRef set_playerRef set_keysRef set_y set_vy p_x p_y p_width
         p_height].
    destruct S as [Sw Sh].
    split; [split; assumption |].
    split; [exact X0 |]. split; [exact X1 |].
    unfold set_y, set_vy. cbn [p_y p_height]. lra.
  - exact H.
  - unfold onStartClick. rewrite startGame_player. exact I.
  - unfold onRestartClick. rewrite startGame_player. exact I.
Qed.

(** X16. In every state reached from mounting, between frames too, the
    player has its size, [0 <= x <= 666] and [y <= 466].  There is no lower
    bound on [y] between frames: each press of Space seen by a running
    handler lifts the player by 2 more. *)
Theorem player_between_frames (best0 : Z) (evs : list Event) :
  let p := playerRef (run evs (initialGame best0)) in
  (0 <= p_x p /\ p_x p <= GAME_WIDTH - PLAYER_SIZE /\
   p_y p <= GAME_HEIGHT - PLAYER_SIZE /\
   p_width p = PLAYER_SIZE /\ p_height p = PLAYER_SIZE)
  /\ (forall v w st,
        v_running v = true -> v_running w = true ->
        p_y (playerRef (onKeyDown w "Space" (onKeyDown v "Space" st)))
        = p_y (playerRef st) - 2 - 2).
Proof.
  intro p.
  assert (H : playerOk p).
  { apply (run_invariant (fun _ => True) (fun s => playerOk (playerRef s))).
    - intros e s _. apply playerOk_handle.
    - apply Forall_any.
    - split; [apply sized_initial |].
      cbn [initialGame playerRef initialPlayer p_x p_y p_width p_height].
      repeat split; apply Qle_bool_imp_le; reflexivity. }
  destruct H as ((Sw & Sh) & X0 & X1 & Y1). rewrite Sw in X1. rewrite Sh in Y1.
  split; [repeat split; assumption |].
  intros v w st Rv Rw.
  rewrite (onKeyDown_jump w "Space" _ Rw (or_introl eq_refl)).
  rewrite (onKeyDown_jump v "Space" st Rv (or_introl eq_refl)).
  reflexivity.
Qed.

(** * The frames the component delivers *)

(** ** A frame right after a start never collides *)


(** ** Runs whose frames read [running] as false *)








(** ** The closures read [running] as false *)

Lemma modeOk_stopped_when_over (st : Game) :
  modeOk st -> gameOver st = true -> running st = false.
Proof.
  intros [H _] G. unfold mode in H. rewrite G in H.
  destruct (running st); [congruence | reflexivity].
Qed.

Lemma closureRun_reads_stopped (w : View) (evs : list Event) (st : Game) :
  modeOk st -> v_running w = false -> closureRun w evs st ->
  Forall readsStopped evs.
Proof.
  revert w st. induction evs as [| e rest IH]; intros w st M W C;
    [constructor |].
  destruct (mode_handle e st M) as [M' _].
  destruct e as [h v timestamp d | v code | code | |]; cbn [closureRun] in C.
  - destruct C as [-> C]. constructor; [exact W |].
    apply (IH w _ M' W C).
  - destruct C as (_ & _ & C). constructor; [exact I |].
    refine (IH _ _ M' _ C).
    destruct (restarts v code) eqn:R; [| exact W].
    unfold restarts in R. apply andb_true_iff in R. destruct R as [R _].
    apply andb_true_iff in R. destruct R as [R _].
    apply negb_true_iff in R. exact R.
  - constructor; [exact I |]. apply (IH w _ M' W C).
  - destruct C as (R & _ & C). constructor; [exact I |].
    apply (IH (view_of st) _ M' R C).
  - destruct C as (G & C). constructor; [exact I |].
    apply (IH (view_of st) _ M' (modeOk_stopped_when_over st M G) C).
Qed.

(** Under the closures of the component, from mounting on, every frame
    callback reads [running] as false. *)
Lemma closure_reads_stopped (best0 : Z) (evs : list Event) :
  closureRun (view_of (initialGame best0)) evs (initialGame best0) ->
  Forall readsStopped evs.
Proof.
  apply closureRun_reads_stopped; [| reflexivity].
  split; [discriminate | reflexivity].
Qed.

(** ** Steps outside Running, and the best score *)




